(** * Verification of nostr-proto: event kinds, the naddr TLV codec and filters

    Shallow embedding of the Rust sources
    [src/types/event_kind.rs], [src/types/naddr.rs], [src/types/filter.rs]
    and [get_leading_zero_bits] of [src/lib.rs].
    Integers of the Rust code ([u8], [u32], [usize], [i64]) are [Z] values;
    bytes are [Z] values in [0, 256). *)

From Stdlib Require Import ZArith Lia Bool List String Ascii Btauto.
From stdpp Require Import base list gmap sorting.
Import ListNotations.
Open Scope Z_scope.

(** Outcome of a Rust function returning [Result<A, E>], extended with the
    possibility of a panic (index out of bounds, arithmetic overflow with
    overflow checks, [unwrap] on an error). *)
Inductive outcome (E A : Type) : Type :=
  | Ok (a : A)
  | Err (e : E)
  | Panic.
Arguments Ok {E A} a.
Arguments Err {E A} e.
Arguments Panic {E A}.

Definition obind {E A B} (m : outcome E A) (k : A -> outcome E B) : outcome E B :=
  match m with
  | Ok a => k a
  | Err e => Err e
  | Panic => Panic
  end.

Notation "'let?' x ':=' m 'in' k" := (obind m (fun x => k))
  (at level 200, x name, m at level 100, k at level 200).

(** ** [src/types/event_kind.rs] *)
Module EK.

(** The enum generated by [define_event_kinds!]: the named kinds (their
    [u32] code in a comment) and the five catch-all variants. *)
Inductive EventKind : Type :=
  | Metadata  (* 0 *)
  | TextNote  (* 1 *)
  | RecommendRelay  (* 2 *)
  | ContactList  (* 3 *)
  | EncryptedDirectMessage  (* 4 *)
  | EventDeletion  (* 5 *)
  | Repost  (* 6 *)
  | Reaction  (* 7 *)
  | BadgeAward  (* 8 *)
  | Seal  (* 13 *)
  | DmChat  (* 14 *)
  | GenericRepost  (* 16 *)
  | ChannelCreation  (* 40 *)
  | ChannelMetadata  (* 41 *)
  | ChannelMessage  (* 42 *)
  | ChannelHideMessage  (* 43 *)
  | ChannelMuteUser  (* 44 *)
  | PublicChatReserved45  (* 45 *)
  | PublicChatReserved46  (* 46 *)
  | PublicChatReserved47  (* 47 *)
  | PublicChatReserved48  (* 48 *)
  | PublicChatReserved49  (* 49 *)
  | Timestamp  (* 1040 *)
  | GiftWrap  (* 1059 *)
  | FileMetadata  (* 1063 *)
  | LiveChatMessage  (* 1311 *)
  | ProblemTracker  (* 1971 *)
  | Reporting  (* 1984 *)
  | Label  (* 1985 *)
  | CommunityPost  (* 4549 *)
  | CommunityPostApproval  (* 4550 *)
  | JobFeedback  (* 7000 *)
  | ZapGoal  (* 9041 *)
  | ZapRequest  (* 9734 *)
  | Zap  (* 9735 *)
  | Highlights  (* 9802 *)
  | MuteList  (* 10000 *)
  | PinList  (* 10001 *)
  | RelayList  (* 10002 *)
  | BookmarkList  (* 10003 *)
  | CommunityList  (* 10004 *)
  | PublicChatsList  (* 10005 *)
  | BlockedRelaysList  (* 10006 *)
  | SearchRelaysList  (* 10007 *)
  | InterestsList  (* 10015 *)
  | UserEmojiList  (* 10030 *)
  | WalletInfo  (* 13194 *)
  | Auth  (* 22242 *)
  | WalletRequest  (* 23194 *)
  | WalletResponse  (* 23195 *)
  | NostrConnect  (* 24133 *)
  | HttpAuth  (* 27235 *)
  | FollowSets  (* 30000 *)
  | GenericSets  (* 30001 *)
  | RelaySets  (* 30002 *)
  | BookmarkSets  (* 30003 *)
  | CurationSets  (* 30004 *)
  | ProfileBadges  (* 30008 *)
  | BadgeDefinition  (* 30009 *)
  | InterestSets  (* 30015 *)
  | CreateUpdateStall  (* 30017 *)
  | CreateUpdateProduct  (* 30018 *)
  | LongFormContent  (* 30023 *)
  | DraftLongFormContent  (* 30024 *)
  | EmojiSets  (* 30030 *)
  | AppSpecificData  (* 30078 *)
  | LiveEvent  (* 30311 *)
  | UserStatus  (* 30315 *)
  | ClassifiedListing  (* 30402 *)
  | DraftClassifiedListing  (* 30403 *)
  | DateBasedCalendarEvent  (* 31922 *)
  | TimeBasedCalendarEvent  (* 31923 *)
  | Calendar  (* 31924 *)
  | CalendarEventRsvp  (* 31925 *)
  | HandlerRecommendation  (* 31989 *)
  | HandlerInformation  (* 31990 *)
  | CommunityDefinition  (* 34550 *)
  | JobRequest (u : Z)
  | JobResult (u : Z)
  | Replaceable (u : Z)
  | Ephemeral (u : Z)
  | Other (u : Z).

(** [impl From<EventKind> for u32]. *)
Definition to_u32 (e : EventKind) : Z :=
  match e with
  | Metadata => 0
  | TextNote => 1
  | RecommendRelay => 2
  | ContactList => 3
  | EncryptedDirectMessage => 4
  | EventDeletion => 5
  | Repost => 6
  | Reaction => 7
  | BadgeAward => 8
  | Seal => 13
  | DmChat => 14
  | GenericRepost => 16
  | ChannelCreation => 40
  | ChannelMetadata => 41
  | ChannelMessage => 42
  | ChannelHideMessage => 43
  | ChannelMuteUser => 44
  | PublicChatReserved45 => 45
  | PublicChatReserved46 => 46
  | PublicChatReserved47 => 47
  | PublicChatReserved48 => 48
  | PublicChatReserved49 => 49
  | Timestamp => 1040
  | GiftWrap => 1059
  | FileMetadata => 1063
  | LiveChatMessage => 1311
  | ProblemTracker => 1971
  | Reporting => 1984
  | Label => 1985
  | CommunityPost => 4549
  | CommunityPostApproval => 4550
  | JobFeedback => 7000
  | ZapGoal => 9041
  | ZapRequest => 9734
  | Zap => 9735
  | Highlights => 9802
  | MuteList => 10000
  | PinList => 10001
  | RelayList => 10002
  | BookmarkList => 10003
  | CommunityList => 10004
  | PublicChatsList => 10005
  | BlockedRelaysList => 10006
  | SearchRelaysList => 10007
  | InterestsList => 10015
  | UserEmojiList => 10030
  | WalletInfo => 13194
  | Auth => 22242
  | WalletRequest => 23194
  | WalletResponse => 23195
  | NostrConnect => 24133
  | HttpAuth => 27235
  | FollowSets => 30000
  | GenericSets => 30001
  | RelaySets => 30002
  | BookmarkSets => 30003
  | CurationSets => 30004
  | ProfileBadges => 30008
  | BadgeDefinition => 30009
  | InterestSets => 30015
  | CreateUpdateStall => 30017
  | CreateUpdateProduct => 30018
  | LongFormContent => 30023
  | DraftLongFormContent => 30024
  | EmojiSets => 30030
  | AppSpecificData => 30078
  | LiveEvent => 30311
  | UserStatus => 30315
  | ClassifiedListing => 30402
  | DraftClassifiedListing => 30403
  | DateBasedCalendarEvent => 31922
  | TimeBasedCalendarEvent => 31923
  | Calendar => 31924
  | CalendarEventRsvp => 31925
  | HandlerRecommendation => 31989
  | HandlerInformation => 31990
  | CommunityDefinition => 34550
  | JobRequest u | JobResult u | Replaceable u | Ephemeral u | Other u => u
  end.

(** [static WELL_KNOWN_KINDS], in declaration order. *)
Definition WELL_KNOWN_KINDS : list EventKind := [
   Metadata;
   TextNote;
   RecommendRelay;
   ContactList;
   EncryptedDirectMessage;
   EventDeletion;
   Repost;
   Reaction;
   BadgeAward;
   Seal;
   DmChat;
   GenericRepost;
   ChannelCreation;
   ChannelMetadata;
   ChannelMessage;
   ChannelHideMessage;
   ChannelMuteUser;
   PublicChatReserved45;
   PublicChatReserved46;
   PublicChatReserved47;
   PublicChatReserved48;
   PublicChatReserved49;
   Timestamp;
   GiftWrap;
   FileMetadata;
   LiveChatMessage;
   ProblemTracker;
   Reporting;
   Label;
   CommunityPost;
   CommunityPostApproval;
   JobFeedback;
   ZapGoal;
   ZapRequest;
   Zap;
   Highlights;
   MuteList;
   PinList;
   RelayList;
   BookmarkList;
   CommunityList;
   PublicChatsList;
   BlockedRelaysList;
   SearchRelaysList;
   InterestsList;
   UserEmojiList;
   WalletInfo;
   Auth;
   WalletRequest;
   WalletResponse;
   NostrConnect;
   HttpAuth;
   FollowSets;
   GenericSets;
   RelaySets;
   BookmarkSets;
   CurationSets;
   ProfileBadges;
   BadgeDefinition;
   InterestSets;
   CreateUpdateStall;
   CreateUpdateProduct;
   LongFormContent;
   DraftLongFormContent;
   EmojiSets;
   AppSpecificData;
   LiveEvent;
   UserStatus;
   ClassifiedListing;
   DraftClassifiedListing;
   DateBasedCalendarEvent;
   TimeBasedCalendarEvent;
   Calendar;
   CalendarEventRsvp;
   HandlerRecommendation;
   HandlerInformation;
   CommunityDefinition].

(** [impl From<u32> for EventKind]: the [match] tries the named codes
    ([$value => $name], in declaration order) before the range guards.
    Rust's [a..b] is half-open. *)
Definition from_u32 (u : Z) : EventKind :=
  match find (fun e => Z.eqb (to_u32 e) u) WELL_KNOWN_KINDS with
  | Some e => e
  | None =>
      if (5000 <=? u) && (u <? 5999) then JobRequest u
      else if (6000 <=? u) && (u <? 6999) then JobResult u
      else if (10000 <=? u) && (u <? 20000) then Replaceable u
      else if (20000 <=? u) && (u <? 30000) then Ephemeral u
      else Other u
  end.

(** [#[derive(PartialEq)]]: structural equality. *)
Definition EventKind_eq_dec (a b : EventKind) : {a = b} + {a <> b}.
Proof. decide equality; apply Z.eq_dec. Defined.

#[global] Instance EventKind_EqDecision : EqDecision EventKind := EventKind_eq_dec.

(** [is_job_request]: [(5000..=5999).contains(&u)]. *)
Definition is_job_request (e : EventKind) : bool :=
  let u := to_u32 e in (5000 <=? u) && (u <=? 5999).

(** [is_job_result]: [(6000..=6999).contains(&u)]. *)
Definition is_job_result (e : EventKind) : bool :=
  let u := to_u32 e in (6000 <=? u) && (u <=? 6999).

(** [is_replaceable]. *)
Definition is_replaceable (e : EventKind) : bool :=
  match e with
  | Metadata => true
  | ContactList => true
  | _ =>
      let u := to_u32 e in
      ((10000 <=? u) && (u <=? 19999)) || ((30000 <=? u) && (u <=? 39999))
  end.

(** [is_ephemeral]. *)
Definition is_ephemeral (e : EventKind) : bool :=
  let u := to_u32 e in (20000 <=? u) && (u <=? 29999).

(** [is_parameterized_replaceable]. *)
Definition is_parameterized_replaceable (e : EventKind) : bool :=
  let u := to_u32 e in (30000 <=? u) && (u <=? 39999).

(** [is_feed_displayable]: [matches!] on the listed variants. *)
Definition is_feed_displayable (e : EventKind) : bool :=
  match e with
  | TextNote | EncryptedDirectMessage | Repost | DmChat | GenericRepost
  | ChannelMessage | FileMetadata | LiveChatMessage | CommunityPost
  | LongFormContent | DraftLongFormContent => true
  | _ => false
  end.

(** [augments_feed_related]. *)
Definition augments_feed_related (e : EventKind) : bool :=
  match e with
  | EventDeletion | Reaction | Timestamp | Label | Reporting | Zap => true
  | _ => false
  end.

(** [is_feed_related]. *)
Definition is_feed_related (e : EventKind) : bool :=
  is_feed_displayable e || augments_feed_related e.

(** [is_direct_message_related]. *)
Definition is_direct_message_related (e : EventKind) : bool :=
  match e with
  | EncryptedDirectMessage | DmChat | GiftWrap => true
  | _ => false
  end.

(** [contents_are_encrypted]. *)
Definition contents_are_encrypted (e : EventKind) : bool :=
  match e with
  | EncryptedDirectMessage | MuteList | PinList | BookmarkList | CommunityList
  | PublicChatsList | BlockedRelaysList | SearchRelaysList | InterestsList
  | UserEmojiList | JobRequest _ | JobResult _ | WalletRequest | WalletResponse
  | NostrConnect => true
  | _ => false
  end.

(** [EventKindIterator]: the index of the next well-known kind. *)
Record EventKindIterator := mkIter { pos : nat }.

(** [EventKind::iter()], i.e. [EventKindIterator::new()]. *)
Definition iter : EventKindIterator := mkIter 0.

(** [Iterator::next]: [WELL_KNOWN_KINDS[self.pos]] panics out of bounds. *)
Definition next (it : EventKindIterator)
  : outcome Empty_set (option EventKind * EventKindIterator) :=
  if Nat.eqb (pos it) (length WELL_KNOWN_KINDS) then Ok (None, it)
  else match nth_error WELL_KNOWN_KINDS (pos it) with
       | Some rval => Ok (Some rval, mkIter (S (pos it)))
       | None => Panic
       end.

(** [Iterator::size_hint]. *)
Definition size_hint (it : EventKindIterator) : nat * option nat :=
  (pos it, Some (length WELL_KNOWN_KINDS)).

(** [n] calls of [next]: the items returned and the final iterator (the
    calls after the first [None] return nothing more). *)
Fixpoint next_n (n : nat) (it : EventKindIterator)
  : outcome Empty_set (list EventKind * EventKindIterator) :=
  match n with
  | O => Ok ([], it)
  | S n' =>
      let? r := next it in
      match r with
      | (Some k, it') => let? r' := next_n n' it' in Ok (k :: r'.1, r'.2)
      | (None, it') => let? r' := next_n n' it' in Ok (r'.1, r'.2)
      end
  end.

(** The catch-all variants, which no name of the enum denotes. *)
Definition is_catch_all (e : EventKind) : bool :=
  match e with
  | JobRequest _ | JobResult _ | Replaceable _ | Ephemeral _ | Other _ => true
  | _ => false
  end.

End EK.

(** ** The [bech32] crate (external dependency)

    [bech32::encode::<Bech32>] and [bech32::decode], following BIP-173/BIP-350:
    [decode] accepts a checksum of either variant, rejects mixed case, splits
    at the last ['1'], and turns the 5-bit data into bytes, dropping the
    trailing incomplete bits.  Strings are their bytes. *)
Module Bech32.

Definition CHARSET : list Z :=
  map (fun a => Z.of_nat (nat_of_ascii a))
      (list_ascii_of_string "qpzry9x8gf2tvdw0s3jn54khce6mua7l").

Definition BECH32_CONST : Z := 1.
Definition BECH32M_CONST : Z := 0x2bc830a3.

Definition gen_term (b : Z) : Z :=
  Z.lxor (if Z.testbit b 0 then 0x3b6a57b2 else 0)
  (Z.lxor (if Z.testbit b 1 then 0x26508e6d else 0)
  (Z.lxor (if Z.testbit b 2 then 0x1ea119fa else 0)
  (Z.lxor (if Z.testbit b 3 then 0x3d4233dd else 0)
          (if Z.testbit b 4 then 0x2a1462b3 else 0)))).

Definition polymod_step (chk v : Z) : Z :=
  Z.lxor (Z.lxor (Z.shiftl (Z.land chk 0x1ffffff) 5) v) (gen_term (Z.shiftr chk 25)).

Definition polymod (values : list Z) : Z := fold_left polymod_step values 1.

Definition hrp_expand (hrp : list Z) : list Z :=
  map (fun c => Z.shiftr c 5) hrp ++ [0] ++ map (fun c => Z.land c 31) hrp.

Definition create_checksum (hrp data : list Z) : list Z :=
  let pm := Z.lxor (polymod (hrp_expand hrp ++ data ++ [0;0;0;0;0;0])) BECH32_CONST in
  map (fun i => Z.land (Z.shiftr pm (5 * (5 - i))) 31) [0;1;2;3;4;5].

(** Big-endian bits of the low [n] bits of [x], and back. *)
Fixpoint bits_be (n : nat) (x : Z) : list bool :=
  match n with
  | O => []
  | S n' => Z.testbit x (Z.of_nat n') :: bits_be n' x
  end.

Definition of_bits (l : list bool) : Z :=
  fold_left (fun acc b => 2 * acc + Z.b2z b) l 0.

(** Regrouping a bit stream into [k]-bit values; with [pad] a final partial
    group is zero-padded, without it is dropped. *)
Fixpoint regroup (k : nat) (pad : bool) (cur : list bool) (l : list bool) : list Z :=
  match l with
  | [] => if pad && negb (Nat.eqb (length cur) 0)
          then [of_bits (cur ++ repeat false (k - length cur))] else []
  | b :: l' =>
      let cur' := cur ++ [b] in
      if Nat.eqb (length cur') k then of_bits cur' :: regroup k pad [] l'
      else regroup k pad cur' l'
  end.

(** Bytes to 5-bit field elements (padded), and field elements to bytes. *)
Definition to_fes (data : list Z) : list Z :=
  regroup 5 true [] (concat (map (bits_be 8) data)).
Definition fes_to_bytes (fes : list Z) : list Z :=
  regroup 8 false [] (concat (map (bits_be 5) fes)).

Definition fe_char (x : Z) : Z := nth (Z.to_nat x) CHARSET 0.

Fixpoint index_of (x : Z) (l : list Z) : option nat :=
  match l with
  | [] => None
  | y :: l' => if Z.eqb x y then Some O else option_map S (index_of x l')
  end.

Definition fe_of_char (c : Z) : option Z := option_map Z.of_nat (index_of c CHARSET).

Fixpoint map_opt {A B} (f : A -> option B) (l : list A) : option (list B) :=
  match l with
  | [] => Some []
  | x :: l' =>
      match f x with
      | Some y => option_map (cons y) (map_opt f l')
      | None => None
      end
  end.

Definition is_upper (c : Z) : bool := (65 <=? c) && (c <=? 90).
Definition is_lower (c : Z) : bool := (97 <=? c) && (c <=? 122).
Definition to_lower (c : Z) : Z := if is_upper c then c + 32 else c.

(** Split at the last separator ['1']. *)
Definition split_last_one (s : list Z) : option (list Z * list Z) :=
  let r := rev s in
  match index_of 49 r with
  | None => None
  | Some i => Some (rev (skipn (S i) r), rev (firstn i r))
  end.

Definition hrp_ok (hrp : list Z) : bool :=
  (1 <=? Z.of_nat (length hrp)) && (Z.of_nat (length hrp) <=? 83) &&
  forallb (fun c => (33 <=? c) && (c <=? 126)) hrp.

(** [bech32::decode]: the human-readable part (lower case) and the bytes. *)
Definition decode (s : list Z) : option (list Z * list Z) :=
  if existsb is_upper s && existsb is_lower s then None else
  let s := map to_lower s in
  match split_last_one s with
  | None => None
  | Some (hrp, dp) =>
      if negb (hrp_ok hrp) then None else
      match map_opt fe_of_char dp with
      | None => None
      | Some fes =>
          if Nat.ltb (length fes) 6 then None else
          let pm := polymod (hrp_expand hrp ++ fes) in
          if (pm =? BECH32M_CONST) || (pm =? BECH32_CONST)
          then Some (hrp, fes_to_bytes (firstn (length fes - 6) fes))
          else None
      end
  end.

(** [bech32::encode::<Bech32>] for a lower-case human-readable part. *)
Definition encode (hrp data : list Z) : list Z :=
  let fes := to_fes data in
  hrp ++ [49] ++ map fe_char (fes ++ create_checksum hrp fes).

End Bech32.

(** The bytes of a string literal. *)
Definition bytes_of_string (s : string) : list Z :=
  map (fun a => Z.of_nat (nat_of_ascii a)) (list_ascii_of_string s).

(** ** [src/types/naddr.rs] *)
Module NA.
Import EK.

(** The variants of [crate::Error] that [NAddr::try_from_bech32_string]
    can return. *)
Inductive Error : Type :=
  | Bech32Decode                          (* [?] on [bech32::decode] *)
  | WrongBech32 (expected got : list Z)
  | InvalidProfile
  | Utf8Error                             (* [?] on [std::str::from_utf8] *)
  | WrongLengthKindBytes
  | NonReplaceableAddr
  | InvalidNAddr
  | InvalidPublicKey.

(** [lazy_static HRP_NADDR = Hrp::parse("naddr")]. *)
Definition HRP_NADDR : list Z := bytes_of_string "naddr".

(** Big-endian [u32] conversions. *)
Definition be_to_Z (raw : list Z) : Z := fold_left (fun acc b => acc * 256 + b) raw 0.
Definition to_be_bytes (u : Z) : list Z :=
  [Z.land (Z.shiftr u 24) 255; Z.land (Z.shiftr u 16) 255;
   Z.land (Z.shiftr u 8) 255; Z.land u 255].

(** *** Public keys *)

(** A [PublicKey] holds an x-only secp256k1 key; [as_bytes] gives its 32
    serialised bytes. *)
Record PublicKey := mkPublicKey { pk_bytes : list Z }.

#[global] Instance PublicKey_eq_dec : EqDecision PublicKey.
Proof. solve_decision. Defined.

Definition as_bytes (pk : PublicKey) : list Z := pk_bytes pk.

(** The secp256k1 field: [p = 2^256 - 2^32 - 977]. *)
Definition SECP_P : Z := 2 ^ 256 - 2 ^ 32 - 977.

Fixpoint pow_mod_pos (b : Z) (e : positive) (m : Z) : Z :=
  match e with
  | xH => b mod m
  | xO e' => let h := pow_mod_pos b e' m in (h * h) mod m
  | xI e' => let h := pow_mod_pos b e' m in (h * h * b) mod m
  end.

(** x-only parse: [x < p] and [x^3 + 7] is a square mod [p] (Euler's
    criterion; [x^3 + 7] is never 0 mod [p] on this curve). *)
Definition xonly_valid (x : Z) : bool :=
  (0 <=? x) && (x <? SECP_P) &&
  (pow_mod_pos ((x * x * x + 7) mod SECP_P) (Z.to_pos ((SECP_P - 1) / 2)) SECP_P =? 1).

Definition bytes_ok (l : list Z) : bool := forallb (fun b => (0 <=? b) && (b <=? 255)) l.

(** Modelled from the spec: [PublicKey::from_bytes] (src/types/public_key.rs
    is not part of the sources).  "A malformed author public key (wrong
    length or invalid curve point)" is rejected; with [verify] the curve
    point is checked. *)
Definition pubkey_from_bytes (raw : list Z) (verify : bool) : outcome Error PublicKey :=
  if negb (Nat.eqb (length raw) 32) || negb (bytes_ok raw) then Err InvalidPublicKey
  else if verify && negb (xonly_valid (be_to_Z raw)) then Err InvalidPublicKey
  else Ok (mkPublicKey raw).

(** A value of type [PublicKey]: 32 bytes naming a point of the curve. *)
Definition pubkey_valid (pk : PublicKey) : bool :=
  Nat.eqb (length (pk_bytes pk)) 32 && bytes_ok (pk_bytes pk) &&
  xonly_valid (be_to_Z (pk_bytes pk)).

(** *** UTF-8 *)

Definition in_range (lo hi b : Z) : bool := (lo <=? b) && (b <=? hi).
Definition utf8_cont (c : Z) : bool := in_range 0x80 0xBF c.

(** Allowed range of the second byte of a multi-byte sequence (no overlong
    forms, no surrogates, nothing above U+10FFFF). *)
Definition utf8_second (b c : Z) : bool :=
  if b =? 0xE0 then in_range 0xA0 0xBF c
  else if b =? 0xED then in_range 0x80 0x9F c
  else if b =? 0xF0 then in_range 0x90 0xBF c
  else if b =? 0xF4 then in_range 0x80 0x8F c
  else utf8_cont c.

Fixpoint utf8_valid (l : list Z) : bool :=
  match l with
  | [] => true
  | b :: r =>
      if in_range 0 0x7F b then utf8_valid r
      else if in_range 0xC2 0xDF b then
        match r with c1 :: r1 => utf8_cont c1 && utf8_valid r1 | _ => false end
      else if in_range 0xE0 0xEF b then
        match r with c1 :: c2 :: r2 => utf8_second b c1 && utf8_cont c2 && utf8_valid r2
                | _ => false end
      else if in_range 0xF0 0xF4 b then
        match r with c1 :: c2 :: c3 :: r3 =>
          utf8_second b c1 && utf8_cont c2 && utf8_cont c3 && utf8_valid r3
                | _ => false end
      else false
  end.

(** [std::str::from_utf8(raw)?.to_string()]: a [String] is its bytes. *)
Definition from_utf8 (raw : list Z) : outcome Error (list Z) :=
  if utf8_valid raw then Ok raw else Err Utf8Error.

(** *** The address pointer *)

(** [UncheckedUrl] wraps its [String]; [UncheckedUrl::from_str] keeps it. *)
Record NAddr := mkNAddr {
  d : list Z;
  relays : list (list Z);
  kind : EventKind;
  author : PublicKey
}.

(** [impl PartialEq for NAddr]: relays are not compared. *)
Definition naddr_eq (a b : NAddr) : bool :=
  bool_decide (d a = d b) && bool_decide (kind a = kind b) &&
  bool_decide (author a = author b).

(** [NAddr::as_bech32_string]: the pushes of the TLV buffer, lengths cast
    with [as u8].  (The crate's own code-length limit is not modelled.) *)
Definition naddr_tlv (n : NAddr) : list Z :=
  [0; Z.of_nat (length (d n)) mod 256] ++ d n ++
  concat (map (fun r => [1; Z.of_nat (length r) mod 256] ++ r) (relays n)) ++
  ([3; 4] ++ to_be_bytes (to_u32 (kind n))) ++
  ([2; 32] ++ as_bytes (author n)).

Definition as_bech32_string (n : NAddr) : list Z := Bech32.encode HRP_NADDR (naddr_tlv n).

(** *** Decoding *)

(** The locals of the decoding loop. *)
Record scan_state := mkScan {
  maybe_d : option (list Z);
  s_relays : list (list Z);
  maybe_kind : option EventKind;
  maybe_author : option PublicKey
}.

Definition scan_init : scan_state := mkScan None [] None None.

Section Decode.

(** Whether the build checks [usize] arithmetic for overflow (debug
    profile) or wraps (release profile). *)
Variable overflow_checks : bool.

(** [a - b] on [usize]. *)
Definition usize_sub (a b : Z) : outcome Error Z :=
  if a <? b then (if overflow_checks then Panic else Ok ((a - b) mod 2 ^ 64))
  else Ok (a - b).

(** [tlv[i]]: panics out of bounds. *)
Definition index (tlv : list Z) (i : Z) : outcome Error Z :=
  match nth_error tlv (Z.to_nat i) with
  | Some b => Ok b
  | None => Panic
  end.

(** [&tlv[pos..pos + len]]. *)
Definition slice (tlv : list Z) (lo hi : Z) : list Z :=
  firstn (Z.to_nat (hi - lo)) (skipn (Z.to_nat lo) tlv).

(** The body of [match ty { ... }] for one field. *)
Definition tlv_step (ty : Z) (raw : list Z) (st : scan_state) : outcome Error scan_state :=
  match ty with
  | 0 => let? s := from_utf8 raw in
         Ok (mkScan (Some s) (s_relays st) (maybe_kind st) (maybe_author st))
  | 1 => let? relay_str := from_utf8 raw in
         Ok (mkScan (maybe_d st) (s_relays st ++ [relay_str]) (maybe_kind st) (maybe_author st))
  | 2 => match pubkey_from_bytes raw true with
         | Ok pk => Ok (mkScan (maybe_d st) (s_relays st) (maybe_kind st) (Some pk))
         | _ => Ok st
         end
  | 3 => if Nat.eqb (length raw) 4
         then Ok (mkScan (maybe_d st) (s_relays st) (Some (from_u32 (be_to_Z raw)))
                         (maybe_author st))
         else Err WrongLengthKindBytes
  | _ => Ok st
  end.

(** The [loop] of [try_from_bech32_string]; [fuel] bounds the iterations
    (each one that does not break advances [pos] by at least 2). *)
Fixpoint scan_loop (fuel : nat) (tlv : list Z) (pos : Z) (st : scan_state)
  : outcome Error scan_state :=
  match fuel with
  | O => Panic
  | S fuel' =>
      let? lim := usize_sub (Z.of_nat (length tlv)) 2 in
      if pos >? lim then Ok st else
      let? ty := index tlv pos in
      let? len := index tlv (pos + 1) in
      let pos := pos + 2 in
      if pos + len >? Z.of_nat (length tlv) then Err InvalidProfile else
      let raw := slice tlv pos (pos + len) in
      let? st' := tlv_step ty raw st in
      scan_loop fuel' tlv (pos + len) st'
  end.

(** The final [match (maybe_d, maybe_kind, maybe_author)]. *)
Definition finish (st : scan_state) : outcome Error NAddr :=
  match maybe_d st, maybe_kind st, maybe_author st with
  | Some d, Some kind, Some author =>
      if negb (is_replaceable kind) then Err NonReplaceableAddr
      else Ok (mkNAddr d (s_relays st) kind author)
  | _, _, _ => Err InvalidNAddr
  end.

(** The [else] branch of [try_from_bech32_string], on [tlv = data.1]. *)
Definition naddr_from_tlv (tlv : list Z) : outcome Error NAddr :=
  let? st := scan_loop (S (length tlv)) tlv 0 scan_init in
  finish st.

(** [NAddr::try_from_bech32_string]. *)
Definition try_from_bech32_string (s : list Z) : outcome Error NAddr :=
  match Bech32.decode s with
  | None => Err Bech32Decode
  | Some (hrp, tlv) =>
      if negb (bool_decide (hrp = HRP_NADDR)) then Err (WrongBech32 HRP_NADDR hrp)
      else naddr_from_tlv tlv
  end.

End Decode.

(** The x coordinate of the secp256k1 generator: 32 bytes naming a point
    of the curve, used as a concrete author key. *)
Definition generator_x : list Z :=
  [0x79;0xBE;0x66;0x7E;0xF9;0xDC;0xBB;0xAC;0x55;0xA0;0x62;0x95;0xCE;0x87;0x0B;0x07;
   0x02;0x9B;0xFC;0xDB;0x2D;0xCE;0x28;0xD9;0x59;0xF2;0x81;0x5B;0x16;0xF8;0x17;0x98].

(** A TLV buffer built from [(type, value)] fields, each [type], [length],
    then the value bytes. *)
Definition tlv_field (f : Z * list Z) : list Z := f.1 :: Z.of_nat (length f.2) :: f.2.
Definition encode_fields (fs : list (Z * list Z)) : list Z := concat (map tlv_field fs).

(** A field whose type fits a byte and whose value fits the length byte. *)
Definition field_ok (f : Z * list Z) : Prop :=
  0 <= f.1 <= 255 /\ (length f.2 <= 255)%nat.

(** The fields the decoder does not keep: an unknown type code, or an
    author (type 2) that is not a valid public key. *)
Definition is_junk (f : Z * list Z) : bool :=
  match f.1 with
  | 0 | 1 | 3 => false
  | 2 => match pubkey_from_bytes f.2 true with Ok _ => false | _ => true end
  | _ => true
  end.

(** The loop body applied to the fields in order. *)
Fixpoint fold_steps (fs : list (Z * list Z)) (st : scan_state) : outcome Error scan_state :=
  match fs with
  | [] => Ok st
  | f :: fs' => let? st' := tlv_step f.1 f.2 st in fold_steps fs' st'
  end.

(** A field the loop body accepts without error: a d tag or a relay in
    UTF-8, a kind of 4 bytes; authors and unknown types never fail. *)
Definition field_good (f : Z * list Z) : bool :=
  match f.1 with
  | 0 | 1 => utf8_valid f.2
  | 3 => Nat.eqb (length f.2) 4
  | _ => true
  end.

(** The values of the fields of type [ty], in buffer order. *)
Definition values_of (ty : Z) (fs : list (Z * list Z)) : list (list Z) :=
  map snd (List.filter (fun f => f.1 =? ty) fs).

(** An author value [PublicKey::from_bytes(raw, true)] accepts. *)
Definition valid_author (raw : list Z) : bool :=
  match pubkey_from_bytes raw true with Ok _ => true | _ => false end.

(** The last element of [l], if any, else [dflt]. *)
Definition last_or {A} (l : list A) (dflt : option A) : option A :=
  match last l with Some x => Some x | None => dflt end.

End NA.

(** ** [src/types/filter.rs] *)
Module F.
Import EK.

(** A Rust [String] as its sequence of [char]s (Unicode scalar values). *)
Abbreviation str := (list Z).

(** Modelled from the spec: the conversions [Id -> IdHex] and
    [PublicKey -> PublicKeyHex] (src/types/id.rs and public_key.rs are not
    part of the sources): "the event's id (as lowercase hex)", "the event's
    author (as lowercase hex)". *)
Definition hex_digit (n : Z) : Z := if n <? 10 then 48 + n else 87 + n.
Definition hex_of_bytes (bytes : list Z) : str :=
  concat (map (fun b => [hex_digit (b / 16); hex_digit (b mod 16)]) bytes).

(** The fields of [Event] (src/types/event.rs is not part of the sources);
    [event_matches_incomplete] reads [id], [pubkey], [kind], [created_at]. *)
Record Event := mkEvent {
  id : list Z;
  pubkey : NA.PublicKey;
  created_at : Z;
  ev_kind : EventKind;
  ev_tags : list (list str);
  content : str;
  sig : list Z
}.

(** [struct Filter]; [tags] is the [BTreeMap<char, Vec<String>>]. *)
Record Filter := mkFilter {
  ids : list str;
  authors : list str;
  kinds : list EventKind;
  tags : gmap Z (list str);
  since : option Z;
  until : option Z;
  limit : option Z
}.

(** [Filter::new()] / [Default::default()]. *)
Definition filter_default : Filter := mkFilter [] [] [] ∅ None None None.

Definition set_ids (f : Filter) (x : list str) : Filter :=
  mkFilter x (authors f) (kinds f) (tags f) (since f) (until f) (limit f).
Definition set_authors (f : Filter) (x : list str) : Filter :=
  mkFilter (ids f) x (kinds f) (tags f) (since f) (until f) (limit f).
Definition set_kinds (f : Filter) (x : list EventKind) : Filter :=
  mkFilter (ids f) (authors f) x (tags f) (since f) (until f) (limit f).
Definition set_tags (f : Filter) (x : gmap Z (list str)) : Filter :=
  mkFilter (ids f) (authors f) (kinds f) x (since f) (until f) (limit f).

(** [Vec::contains] and [Iterator::position]. *)
Definition contains {A} `{EqDecision A} (x : A) (l : list A) : bool :=
  existsb (fun y => bool_decide (y = x)) l.

Fixpoint position {A} (p : A -> bool) (l : list A) : option nat :=
  match l with
  | [] => None
  | y :: l' => if p y then Some O else option_map S (position p l')
  end.

(** [Vec::swap_remove(i)]: the last element takes the place of the removed
    one.  Rust panics for [i >= len]; every call below passes an index
    found by [position], which is in range. *)
Definition swap_remove {A} (l : list A) (i : nat) : list A :=
  match rev l with
  | [] => []
  | x :: r => if Nat.eqb i (length r) then rev r else <[i := x]> (rev r)
  end.

Definition add_id (f : Filter) (id_hex : str) : Filter :=
  if negb (contains id_hex (ids f)) then set_ids f (ids f ++ [id_hex]) else f.

Definition del_id (f : Filter) (id_hex : str) : Filter :=
  match position (fun x => bool_decide (x = id_hex)) (ids f) with
  | Some i => set_ids f (swap_remove (ids f) i)
  | None => f
  end.

Definition add_author (f : Filter) (pk_hex : str) : Filter :=
  if negb (contains pk_hex (authors f)) then set_authors f (authors f ++ [pk_hex]) else f.

Definition del_author (f : Filter) (pk_hex : str) : Filter :=
  match position (fun x => bool_decide (x = pk_hex)) (authors f) with
  | Some i => set_authors f (swap_remove (authors f) i)
  | None => f
  end.

Definition add_event_kind (f : Filter) (k : EventKind) : Filter :=
  if contains k (kinds f) then f else set_kinds f (kinds f ++ [k]).

Definition del_event_kind (f : Filter) (k : EventKind) : Filter :=
  match position (fun x => bool_decide (x = k)) (kinds f) with
  | Some i => set_kinds f (swap_remove (kinds f) i)
  | None => f
  end.

(** [add_tag_value]: [entry(letter).and_modify(push).or_insert(vec![value])]. *)
Definition add_tag_value (f : Filter) (letter : Z) (value : str) : Filter :=
  match tags f !! letter with
  | Some values => set_tags f (<[letter := values ++ [value]]> (tags f))
  | None => set_tags f (<[letter := [value]]> (tags f))
  end.

(** [del_tag_value]: [and_modify] removes the value if present and records
    whether the list became empty; then the entry is removed. *)
Definition del_tag_value (f : Filter) (letter : Z) (value : str) : Filter :=
  match tags f !! letter with
  | Some values =>
      let values' :=
        match position (fun x => bool_decide (x = value)) values with
        | Some i => swap_remove values i
        | None => values
        end in
      let became_empty := match values' with [] => true | _ => false end in
      let m := <[letter := values']> (tags f) in
      if became_empty then set_tags f (delete letter m) else set_tags f m
  | None => f
  end.

Definition set_tag_values (f : Filter) (letter : Z) (values : list str) : Filter :=
  set_tags f (<[letter := values]> (tags f)).

Definition clear_tag_values (f : Filter) (letter : Z) : Filter :=
  set_tags f (delete letter (tags f)).

(** [event_matches_incomplete] (the tag dimension is "TBD" in the source). *)
Definition event_matches_incomplete (f : Filter) (e : Event) : bool :=
  if negb (bool_decide (ids f = [])) && negb (contains (hex_of_bytes (id e)) (ids f))
  then false else
  if negb (bool_decide (authors f = [])) &&
     negb (contains (hex_of_bytes (NA.as_bytes (pubkey e))) (authors f))
  then false else
  if negb (bool_decide (kinds f = [])) && negb (contains (ev_kind e) (kinds f))
  then false else
  if match since f with Some s => created_at e <? s | None => false end
  then false else
  if match until f with Some u => created_at e >? u | None => false end
  then false else
  true.

(** The [since] and [until] tests of [event_matches_incomplete]. *)
Definition since_ok (f : Filter) (e : Event) : bool :=
  match since f with Some s => negb (created_at e <? s) | None => true end.
Definition until_ok (f : Filter) (e : Event) : bool :=
  match until f with Some u => negb (created_at e >? u) | None => true end.

(** The tag-value mutations, as a sequence of calls. *)
Inductive tag_op :=
  | AddTagValue (letter : Z) (value : str)
  | DelTagValue (letter : Z) (value : str)
  | SetTagValues (letter : Z) (values : list str)
  | ClearTagValues (letter : Z).

Definition apply_tag_op (f : Filter) (op : tag_op) : Filter :=
  match op with
  | AddTagValue l v => add_tag_value f l v
  | DelTagValue l v => del_tag_value f l v
  | SetTagValues l vs => set_tag_values f l vs
  | ClearTagValues l => clear_tag_values f l
  end.

Definition apply_tag_ops (f : Filter) (ops : list tag_op) : Filter :=
  fold_left apply_tag_op ops f.

(** No letter of the tag map holds an empty value list. *)
Definition tags_nonempty (f : Filter) : Prop :=
  map_Forall (fun _ (values : list str) => values <> []) (tags f).

(** A call other than [set_tag_values] with an empty list. *)
Definition not_set_empty (op : tag_op) : Prop :=
  match op with SetTagValues _ [] => False | _ => True end.

End F.

(** ** Deserialising a [Filter] from JSON ([serde_json] with the derived
    [Deserialize] and the [flatten]ed [deserialize_tags]) *)
Module J.
Import EK F.

(** A parsed JSON value; object entries in text order.  Numbers are the
    integers that [serde_json] hands to integer visitors. *)
#[local] Set Warnings "-register-all".
Inductive json :=
  | JNull
  | JBool (b : bool)
  | JNum (n : Z)
  | JStr (s : str)
  | JArr (l : list json)
  | JObj (l : list (str * json)).

Inductive de_error := DuplicateField (name : str) | InvalidType | InvalidValue.

Fixpoint map_out {A B E} (p : A -> outcome E B) (l : list A) : outcome E (list B) :=
  match l with
  | [] => Ok []
  | x :: l' => let? y := p x in let? ys := map_out p l' in Ok (y :: ys)
  end.

Definition de_string (v : json) : outcome de_error str :=
  match v with JStr s => Ok s | _ => Err InvalidType end.

(** [Vec<T>]: a JSON array. *)
Definition de_vec {A} (p : json -> outcome de_error A) (v : json)
  : outcome de_error (list A) :=
  match v with JArr l => map_out p l | _ => Err InvalidType end.

(** [Option<T>]: [null] is [None]. *)
Definition de_option {A} (p : json -> outcome de_error A) (v : json)
  : outcome de_error (option A) :=
  match v with JNull => Ok None | _ => let? x := p v in Ok (Some x) end.

(** Modelled from the spec: [IdHex] and [PublicKeyHex] deserialise from
    hex strings of 32-byte values (src/types/id.rs and public_key.rs are not
    part of the sources); lower-case digits, as the spec's matching uses. *)
Definition is_hex_char (c : Z) : bool := NA.in_range 48 57 c || NA.in_range 97 102 c.

Definition de_hex32 (v : json) : outcome de_error str :=
  let? s := de_string v in
  if Nat.eqb (length s) 64 && forallb is_hex_char s then Ok s else Err InvalidValue.

(** [EventKindVisitor]: [serde_json] calls [visit_u64] for a non-negative
    integer ([v as u32]); the default [visit_i64] rejects a negative one. *)
Definition de_event_kind (v : json) : outcome de_error EventKind :=
  match v with
  | JNum n => if (0 <=? n) && (n <? 2 ^ 64) then Ok (from_u32 (n mod 2 ^ 32))
              else Err InvalidType
  | _ => Err InvalidType
  end.

(** [Unixtime(i64)] and [usize]. *)
Definition de_i64 (v : json) : outcome de_error Z :=
  match v with
  | JNum n => if (- 2 ^ 63 <=? n) && (n <? 2 ^ 63) then Ok n else Err InvalidValue
  | _ => Err InvalidType
  end.

Definition de_usize (v : json) : outcome de_error Z :=
  match v with
  | JNum n => if (0 <=? n) && (n <? 2 ^ 64) then Ok n else Err InvalidValue
  | _ => Err InvalidType
  end.

(** [TagsVisitor::visit_map]: every entry is read as [(String, Vec<String>)];
    a key of the form ['#', ch] is inserted under [ch]. *)
Fixpoint tags_visit_map (entries : list (str * json)) (tags : gmap Z (list str))
  : outcome de_error (gmap Z (list str)) :=
  match entries with
  | [] => Ok tags
  | (key, v) :: rest =>
      let? value := de_vec de_string v in
      match key with
      | [35; ch] => tags_visit_map rest (<[ch := value]> tags)
      | _ => tags_visit_map rest tags
      end
  end.

Definition deserialize_tags (entries : list (str * json)) : outcome de_error (gmap Z (list str)) :=
  tags_visit_map entries ∅.

(** The fields seen so far by the derived [visit_map]. *)
Record fields_seen := mkSeen {
  f_ids : option (list str);
  f_authors : option (list str);
  f_kinds : option (list EventKind);
  f_since : option (option Z);
  f_until : option (option Z);
  f_limit : option (option Z)
}.

Definition seen_none : fields_seen := mkSeen None None None None None None.

(** One field: a second occurrence is [duplicate_field]. *)
Definition de_field {A} (name : str) (cur : option A) (p : json -> outcome de_error A)
  (v : json) : outcome de_error (option A) :=
  match cur with
  | Some _ => Err (DuplicateField name)
  | None => let? x := p v in Ok (Some x)
  end.

(** The derived [visit_map] of [Filter]: known keys fill their field, all
    other entries are collected, in order, for the [flatten]ed field. *)
Fixpoint filter_visit_map (entries : list (str * json)) (s : fields_seen)
  (collect : list (str * json)) : outcome de_error (fields_seen * list (str * json)) :=
  match entries with
  | [] => Ok (s, rev collect)
  | (k, v) :: rest =>
      if bool_decide (k = bytes_of_string "ids") then
        let? x := de_field k (f_ids s) (de_vec de_hex32) v in
        filter_visit_map rest (mkSeen x (f_authors s) (f_kinds s) (f_since s) (f_until s) (f_limit s)) collect
      else if bool_decide (k = bytes_of_string "authors") then
        let? x := de_field k (f_authors s) (de_vec de_hex32) v in
        filter_visit_map rest (mkSeen (f_ids s) x (f_kinds s) (f_since s) (f_until s) (f_limit s)) collect
      else if bool_decide (k = bytes_of_string "kinds") then
        let? x := de_field k (f_kinds s) (de_vec de_event_kind) v in
        filter_visit_map rest (mkSeen (f_ids s) (f_authors s) x (f_since s) (f_until s) (f_limit s)) collect
      else if bool_decide (k = bytes_of_string "since") then
        let? x := de_field k (f_since s) (de_option de_i64) v in
        filter_visit_map rest (mkSeen (f_ids s) (f_authors s) (f_kinds s) x (f_until s) (f_limit s)) collect
      else if bool_decide (k = bytes_of_string "until") then
        let? x := de_field k (f_until s) (de_option de_i64) v in
        filter_visit_map rest (mkSeen (f_ids s) (f_authors s) (f_kinds s) (f_since s) x (f_limit s)) collect
      else if bool_decide (k = bytes_of_string "limit") then
        let? x := de_field k (f_limit s) (de_option de_usize) v in
        filter_visit_map rest (mkSeen (f_ids s) (f_authors s) (f_kinds s) (f_since s) (f_until s) x) collect
      else filter_visit_map rest s ((k, v) :: collect)
  end.

Definition default_to {A} (dflt : A) (o : option A) : A :=
  match o with Some x => x | None => dflt end.

(** [Filter::deserialize] on a JSON object: absent fields take their
    [#[serde(default)]]; the [tags] come from the collected entries. *)
Definition deserialize_filter (obj : list (str * json)) : outcome de_error Filter :=
  let? r := filter_visit_map obj seen_none [] in
  let '(s, collect) := r in
  let? tags := deserialize_tags collect in
  Ok (mkFilter (default_to [] (f_ids s)) (default_to [] (f_authors s))
               (default_to [] (f_kinds s)) tags (default_to None (f_since s))
               (default_to None (f_until s)) (default_to None (f_limit s))).

(** The keys the derived [visit_map] fills a field with. *)
Definition known_key (k : str) : bool :=
  bool_decide (k ∈ map bytes_of_string ["ids"; "authors"; "kinds"; "since"; "until"; "limit"]%string).

(** A key of the form ['#', ch]. *)
Definition tag_key (k : str) : option Z :=
  match k with [35; ch] => Some ch | _ => None end.

(** ** Serialising a [Filter] to JSON (the derived [Serialize]) *)

(** [impl Serialize for EventKind]: [serialize_u32(u32::from(self))]. *)
Definition serialize_event_kind (e : EventKind) : json := JNum (to_u32 e).

(** [BTreeMap::iter]: the entries in ascending key order. *)
Definition tag_entries (m : gmap Z (list str)) : list (Z * list str) :=
  @merge_sort _ (fun a b : Z * list str => a.1 <= b.1) (fun a b => Z_le_dec a.1 b.1)
    (map_to_list m).

(** [serialize_tags]: an entry [format!("#{tag}")] per letter, its value
    the [Vec<String>]. *)
Definition serialize_tags (m : gmap Z (list str)) : list (str * json) :=
  map (fun e : Z * list str => ([35; e.1], JArr (map JStr e.2))) (tag_entries m).

(** The derived [Serialize] of [Filter], as the entries of the JSON object:
    the fields in declaration order, [skip_serializing_if] leaving out an
    empty [Vec] or a [None], the [flatten]ed tags in place.  [IdHex] and
    [PublicKeyHex] serialise as their string, [Unixtime] as its [i64]
    (the forms [de_hex32] and [de_i64] read). *)
Definition serialize_filter (f : Filter) : list (str * json) :=
  (if bool_decide (ids f = []) then []
   else [(bytes_of_string "ids", JArr (map JStr (ids f)))]) ++
  (if bool_decide (authors f = []) then []
   else [(bytes_of_string "authors", JArr (map JStr (authors f)))]) ++
  (if bool_decide (kinds f = []) then []
   else [(bytes_of_string "kinds", JArr (map serialize_event_kind (kinds f)))]) ++
  serialize_tags (tags f) ++
  (match since f with Some s => [(bytes_of_string "since", JNum s)] | None => [] end) ++
  (match until f with Some u => [(bytes_of_string "until", JNum u)] | None => [] end) ++
  (match limit f with Some l => [(bytes_of_string "limit", JNum l)] | None => [] end).

End J.

(** ** [src/lib.rs] *)
Module L.

Section LeadingZeros.

(** Whether the build checks [u8] arithmetic for overflow (debug profile)
    or wraps (release profile). *)
Variable overflow_checks : bool.

(** [a + b] (and [a += b]) on [u8]. *)
Definition u8_add (a b : Z) : outcome Empty_set Z :=
  if a + b <? 256 then Ok (a + b)
  else if overflow_checks then Panic else Ok ((a + b) mod 256).

(** [u8::leading_zeros] (a [u32] at most 8, so [as u8] keeps it). *)
Definition leading_zeros (b : Z) : Z := if b =? 0 then 8 else 7 - Z.log2 b.

(** The [for] loop of [get_leading_zero_bits], from the current [res]. *)
Fixpoint lzb_loop (bytes : list Z) (res : Z) : outcome Empty_set Z :=
  match bytes with
  | [] => Ok res
  | b :: rest =>
      if b =? 0 then let? res' := u8_add res 8 in lzb_loop rest res'
      else u8_add res (leading_zeros b)
  end.

(** [get_leading_zero_bits]. *)
Definition get_leading_zero_bits (bytes : list Z) : outcome Empty_set Z :=
  lzb_loop bytes 0.

End LeadingZeros.

(** The number of [false] before the first [true]. *)
Fixpoint count_leading_false (l : list bool) : nat :=
  match l with
  | false :: l' => S (count_leading_false l')
  | _ => O
  end.

(** The number of leading zero bits of a byte string read big-endian. *)
Definition leading_zero_bits (bytes : list Z) : Z :=
  Z.of_nat (count_leading_false (concat (map (Bech32.bits_be 8) bytes))).

End L.

(** * Proofs *)

(** ** Event kinds *)

(** Claim C1: for every [u32] value [k], [u32::from(EventKind::from(k)) = k]:
    a named kind is only chosen when its code is [k], and every catch-all
    variant carries [k] itself. *)
Theorem from_u32_roundtrip (k : Z) : EK.to_u32 (EK.from_u32 k) = k.
Proof.
  unfold EK.from_u32. destruct (find _ _) as [e|] eqn:Hfind.
  - apply find_some in Hfind as [_ Hcode]. now apply Z.eqb_eq.
  - repeat match goal with |- context [if ?b then _ else _] => destruct b end;
      reflexivity.
Qed.

(** Claim C2 (code defect): the guards [(5_000..5_999)] and [(6_000..6_999)]
    are half-open, so the codes 5999 and 6999 fall through to [Other],
    although [is_job_request]/[is_job_result] ([5000..=5999], [6000..=6999])
    classify those very values as job requests/results.  The other range
    examples of the claim hold. *)
Theorem from_u32_job_range_off_by_one :
  EK.from_u32 5999 = EK.Other 5999 /\ EK.from_u32 6999 = EK.Other 6999 /\
  EK.is_job_request (EK.from_u32 5999) = true /\
  EK.is_job_result (EK.from_u32 6999) = true /\
  EK.from_u32 5998 = EK.JobRequest 5998 /\
  EK.from_u32 10002 = EK.RelayList /\ EK.from_u32 15000 = EK.Replaceable 15000 /\
  EK.from_u32 25000 = EK.Ephemeral 25000 /\ EK.from_u32 5500 = EK.JobRequest 5500 /\
  EK.from_u32 99999 = EK.Other 99999.
Proof. vm_compute. repeat split. Qed.

(** ** The naddr decoder on short payloads *)

(** Claim C3 (code defect): [tlv.len() - 2] on a [usize] underflows when
    the decoded payload has fewer than 2 bytes.  With overflow checks this
    panics; without them it wraps and the following [tlv[pos]] or
    [tlv[pos + 1]] is out of bounds, which panics too.  The two strings
    below are valid bech32 with prefix "naddr" and payloads [] and [7]. *)
Theorem try_from_bech32_short_payload_panics :
  Bech32.decode (bytes_of_string "naddr1phnux7") = Some (NA.HRP_NADDR, []) /\
  Bech32.decode (bytes_of_string "naddr1quvxclm9") = Some (NA.HRP_NADDR, [7]) /\
  NA.try_from_bech32_string true (bytes_of_string "naddr1phnux7") = Panic /\
  NA.try_from_bech32_string false (bytes_of_string "naddr1phnux7") = Panic /\
  NA.try_from_bech32_string true (bytes_of_string "naddr1quvxclm9") = Panic /\
  NA.try_from_bech32_string false (bytes_of_string "naddr1quvxclm9") = Panic.
Proof. vm_compute. repeat split. Qed.

(** ** Filters *)

Lemma contains_true {A} `{EqDecision A} (x : A) (l : list A) :
  F.contains x l = true <-> x ∈ l.
Proof.
  unfold F.contains. rewrite existsb_exists, list_elem_of_In. split.
  - intros (y & Hin & Hy). apply bool_decide_eq_true in Hy. now subst.
  - intros Hin. exists x. split; [done|]. now apply bool_decide_eq_true.
Qed.

Lemma matches_as_conjunction (f : F.Filter) (e : F.Event) :
  F.event_matches_incomplete f e =
    (bool_decide (F.ids f = []) || F.contains (F.hex_of_bytes (F.id e)) (F.ids f)) &&
    (bool_decide (F.authors f = []) ||
       F.contains (F.hex_of_bytes (NA.as_bytes (F.pubkey e))) (F.authors f)) &&
    (bool_decide (F.kinds f = []) || F.contains (F.ev_kind e) (F.kinds f)) &&
    F.since_ok f e && F.until_ok f e.
Proof.
  unfold F.event_matches_incomplete, F.since_ok, F.until_ok.
  destruct (bool_decide (F.ids f = [])), (F.contains _ (F.ids f)),
    (bool_decide (F.authors f = [])), (F.contains _ (F.authors f)),
    (bool_decide (F.kinds f = [])), (F.contains _ (F.kinds f)); cbn; try reflexivity;
  destruct (F.since f), (F.until f); cbn; try reflexivity;
  repeat match goal with |- context [if ?c then _ else _] => destruct c end; reflexivity.
Qed.

Lemma since_ok_iff f e :
  F.since_ok f e = true <-> (forall s, F.since f = Some s -> s <= F.created_at e).
Proof.
  unfold F.since_ok. destruct (F.since f) as [s|].
  - rewrite negb_true_iff, Z.ltb_ge. split.
    + intros H s' Heq. inversion Heq; subst. lia.
    + intros H. now apply H.
  - split; [intros _ s' Heq; discriminate | reflexivity].
Qed.

Lemma until_ok_iff f e :
  F.until_ok f e = true <-> (forall u, F.until f = Some u -> F.created_at e <= u).
Proof.
  unfold F.until_ok. destruct (F.until f) as [u|].
  - rewrite negb_true_iff, Z.gtb_ltb, Z.ltb_ge. split.
    + intros H u' Heq. inversion Heq; subst. lia.
    + intros H. now apply H.
  - split; [intros _ u' Heq; discriminate | reflexivity].
Qed.

(** Claim C4: [event_matches_incomplete] is the conjunction of the tests on
    ids, authors, kinds, since and until, each passing when its constraint
    is empty or absent (the tag map is not consulted); a default filter
    matches every event; [since] and [until] are inclusive bounds: with
    [since = T] an event at [T - 1] is rejected and one at [T] accepted,
    with [until = T] an event at [T] is accepted and one at [T + 1]
    rejected. *)
Theorem event_matches_incomplete_spec :
  (forall (f : F.Filter) (e : F.Event),
     F.event_matches_incomplete f e = true <->
       (F.ids f = [] \/ F.hex_of_bytes (F.id e) ∈ F.ids f) /\
       (F.authors f = [] \/ F.hex_of_bytes (NA.as_bytes (F.pubkey e)) ∈ F.authors f) /\
       (F.kinds f = [] \/ F.ev_kind e ∈ F.kinds f) /\
       (forall s, F.since f = Some s -> s <= F.created_at e) /\
       (forall u, F.until f = Some u -> F.created_at e <= u)) /\
  (forall e, F.event_matches_incomplete F.filter_default e = true) /\
  (forall e, F.event_matches_incomplete
               (F.mkFilter [] [] [] ∅ (Some (F.created_at e + 1)) None None) e = false /\
             F.event_matches_incomplete
               (F.mkFilter [] [] [] ∅ (Some (F.created_at e)) None None) e = true /\
             F.event_matches_incomplete
               (F.mkFilter [] [] [] ∅ None (Some (F.created_at e)) None) e = true /\
             F.event_matches_incomplete
               (F.mkFilter [] [] [] ∅ None (Some (F.created_at e - 1)) None) e = false).
Proof.
  split; [|split].
  - intros f e. rewrite matches_as_conjunction.
    rewrite !andb_true_iff, !orb_true_iff, !bool_decide_eq_true, !contains_true.
    rewrite since_ok_iff, until_ok_iff. tauto.
  - intros e. reflexivity.
  - intros e. rewrite !matches_as_conjunction. unfold F.since_ok, F.until_ok. cbn -[Z.ltb Z.gtb].
    rewrite !Z.gtb_ltb, Z.ltb_irrefl.
    replace (F.created_at e <? F.created_at e + 1) with true by (symmetry; apply Z.ltb_lt; lia).
    replace (F.created_at e - 1 <? F.created_at e) with true by (symmetry; apply Z.ltb_lt; lia).
    repeat split.
Qed.

(** [add_id], [add_author] and [add_event_kind] do nothing for a value
    already present. *)
Lemma add_present_noop (f : F.Filter) :
  (forall x, x ∈ F.ids f -> F.add_id f x = f) /\
  (forall x, x ∈ F.authors f -> F.add_author f x = f) /\
  (forall k, k ∈ F.kinds f -> F.add_event_kind f k = f).
Proof.
  unfold F.add_id, F.add_author, F.add_event_kind.
  repeat split; intros x Hx; apply contains_true in Hx; now rewrite Hx.
Qed.

(** Claim C5 (code defect): [add_tag_value] pushes without the
    [contains] test that [add_id], [add_author] and [add_event_kind] make
    (lemma [add_present_noop]): adding the value "x" under 'e' twice gives
    the list ["x"; "x"], so the second call changes the filter.  Adding the
    same id twice leaves one id. *)
Theorem add_tag_value_duplicates :
  let f1 := F.add_tag_value F.filter_default 101 [120] in
  F.tags f1 !! 101 = Some [[120]] /\
  F.tags (F.add_tag_value f1 101 [120]) !! 101 = Some [[120]; [120]] /\
  F.add_tag_value f1 101 [120] <> f1 /\
  length (F.ids (F.add_id (F.add_id F.filter_default [97]) [97])) = 1%nat.
Proof.
  cbn zeta. split; [reflexivity|]. split; [reflexivity|]. split; [|reflexivity].
  intros Heq. apply (f_equal (fun f => F.tags f !! 101)) in Heq. discriminate Heq.
Qed.

(** Claim C9, as stated, fails: [set_tag_values] stores the list it is
    given, so a call with an empty list leaves an empty entry, starting from
    the default filter (whose tag map is empty). *)
Theorem set_tag_values_empty_entry :
  F.tags_nonempty F.filter_default /\
  F.tags (F.apply_tag_ops F.filter_default [F.SetTagValues 101 []]) !! 101 = Some [] /\
  ~ F.tags_nonempty (F.apply_tag_ops F.filter_default [F.SetTagValues 101 []]).
Proof.
  split; [apply map_Forall_empty|]. split; [reflexivity|].
  intros H. exact (H 101 [] eq_refl eq_refl).
Qed.

Lemma position_lt {A} (p : A -> bool) (l : list A) i :
  F.position p l = Some i -> (i < length l)%nat.
Proof.
  revert i. induction l as [|y l IH]; intros i Hp; cbn in Hp; [discriminate|].
  destruct (p y); [injection Hp as <-; cbn; lia|].
  destruct (F.position p l) as [j|] eqn:Hj; cbn in Hp; [|discriminate].
  injection Hp as <-. specialize (IH j eq_refl). cbn. lia.
Qed.

Lemma del_tag_value_nonempty f l v :
  F.tags_nonempty f -> F.tags_nonempty (F.del_tag_value f l v).
Proof.
  unfold F.tags_nonempty, F.del_tag_value. intros H.
  destruct (F.tags f !! l) as [values|] eqn:Hl; [|exact H].
  set (values' := match F.position _ values with Some i => F.swap_remove values i
                  | None => values end).
  destruct values' as [|x r] eqn:Hv; cbn.
  - rewrite delete_insert_eq. now apply map_Forall_delete.
  - apply map_Forall_insert_2; [discriminate | exact H].
Qed.

Lemma apply_tag_op_nonempty f op :
  F.not_set_empty op -> F.tags_nonempty f -> F.tags_nonempty (F.apply_tag_op f op).
Proof.
  unfold F.tags_nonempty. intros Hop H. destruct op as [l v|l v|l vs|l]; cbn.
  - unfold F.add_tag_value. destruct (F.tags f !! l); cbn;
      apply map_Forall_insert_2; auto; intros Hnil;
      first [discriminate | apply app_eq_nil in Hnil as [_ ?]; discriminate].
  - now apply del_tag_value_nonempty.
  - apply map_Forall_insert_2; [|exact H]. destruct vs; [contradiction|discriminate].
  - now apply map_Forall_delete.
Qed.

(** Claim C9, amended: starting from a filter whose tag map has no empty
    value list, every sequence of [add_tag_value], [del_tag_value],
    [clear_tag_values] and [set_tag_values] calls, none of which sets an
    empty list, keeps it so; deleting the last value under a letter removes
    that letter's entry. *)
Theorem tag_map_nonempty_preserved :
  (forall (f : F.Filter) (ops : list F.tag_op),
     F.tags_nonempty f -> Forall F.not_set_empty ops ->
     F.tags_nonempty (F.apply_tag_ops f ops)) /\
  (forall (f : F.Filter) (l : Z) (v : F.str),
     F.tags f !! l = Some [v] -> F.tags (F.del_tag_value f l v) !! l = None).
Proof.
  split.
  - intros f ops. revert f. induction ops as [|op ops IH]; intros f Hf Hops; [exact Hf|].
    inversion Hops; subst. cbn. apply IH; [|assumption].
    now apply apply_tag_op_nonempty.
  - intros f l v Hl. unfold F.del_tag_value. rewrite Hl. cbn.
    rewrite bool_decide_true by reflexivity. cbn.
    apply lookup_delete_eq.
Qed.

Lemma tag_map_nonempty_preserved_witness :
  F.tags_nonempty (F.apply_tag_ops F.filter_default
    [F.AddTagValue 116 [102]; F.AddTagValue 116 [98]; F.DelTagValue 116 [98];
     F.SetTagValues 112 [[97]]; F.DelTagValue 112 [97]; F.ClearTagValues 116]) /\
  F.tags (F.del_tag_value (F.add_tag_value F.filter_default 101 [120]) 101 [120]) !! 101 = None.
Proof.
  split.
  - apply (proj1 tag_map_nonempty_preserved).
    + apply map_Forall_empty.
    + repeat constructor.
  - apply (proj2 tag_map_nonempty_preserved). reflexivity.
Defined.

(** ** Decoding the TLV fields of an naddr *)

Section TlvScan.
Import NA.

Lemma encode_fields_app (fs gs : list (Z * list Z)) :
  encode_fields (fs ++ gs) = encode_fields fs ++ encode_fields gs.
Proof. unfold encode_fields. now rewrite map_app, concat_app. Qed.

Lemma encode_fields_cons f (fs : list (Z * list Z)) :
  encode_fields (f :: fs) = f.1 :: Z.of_nat (length f.2) :: f.2 ++ encode_fields fs.
Proof. reflexivity. Qed.

Lemma length_encode_fields_ge (fs : list (Z * list Z)) :
  (2 * length fs <= length (encode_fields fs))%nat.
Proof.
  induction fs as [|f fs IH]; [cbn; lia|].
  rewrite encode_fields_cons. cbn [length]. rewrite length_app. cbn [length] in *. lia.
Qed.

(** On a buffer made of well-formed fields, the loop applies the body to
    each field in turn. *)
Lemma scan_loop_fields ck (fs pre : list (Z * list Z)) fuel st :
  Forall field_ok fs -> (length fs < fuel)%nat ->
  (2 <= length (encode_fields (pre ++ fs)))%nat ->
  scan_loop ck fuel (encode_fields (pre ++ fs)) (Z.of_nat (length (encode_fields pre))) st =
  fold_steps fs st.
Proof.
  revert pre fuel st. induction fs as [|f fs IH]; intros pre fuel st Hok Hfuel Hlen.
  - destruct fuel as [|fuel]; [cbn in Hfuel; lia|]. rewrite app_nil_r in *. cbn.
    unfold usize_sub. rewrite (proj2 (Z.ltb_ge _ _)) by lia. cbn.
    rewrite (proj2 (Z.gtb_lt _ _)) by lia. reflexivity.
  - inversion Hok as [|? ? [Hty Hraw] Hok']; subst.
    destruct fuel as [|fuel]; [cbn in Hfuel; lia|].
    set (A := encode_fields pre).
    assert (Htlv : encode_fields (pre ++ f :: fs) =
                   A ++ f.1 :: Z.of_nat (length f.2) :: f.2 ++ encode_fields fs)
      by (now rewrite encode_fields_app, encode_fields_cons).
    assert (Hlen' : length (encode_fields (pre ++ f :: fs)) =
                    (length A + 2 + length f.2 + length (encode_fields fs))%nat)
      by (rewrite Htlv, length_app; cbn [length]; rewrite length_app; lia).
    cbn [scan_loop]. rewrite Hlen'.
    unfold usize_sub. rewrite (proj2 (Z.ltb_ge _ _)) by lia. cbn [obind].
    rewrite Z.gtb_ltb, (proj2 (Z.ltb_ge _ _)) by lia.
    unfold index. rewrite Htlv, !Nat2Z.id.
    rewrite nth_error_app2 by lia. rewrite Nat.sub_diag. cbn [nth_error obind].
    rewrite Z2Nat.inj_add by lia. rewrite Nat2Z.id.
    rewrite nth_error_app2 by lia.
    replace (length A + Z.to_nat 1 - length A)%nat with 1%nat by (cbn; lia).
    cbn [nth_error obind].
    rewrite Z.gtb_ltb, (proj2 (Z.ltb_ge _ _)) by lia.
    assert (Hslice : slice (A ++ f.1 :: Z.of_nat (length f.2) :: f.2 ++ encode_fields fs)
                       (Z.of_nat (length A) + 2)
                       (Z.of_nat (length A) + 2 + Z.of_nat (length f.2)) = f.2).
    { unfold slice.
      replace (Z.to_nat (Z.of_nat (length A) + 2 + Z.of_nat (length f.2) -
                         (Z.of_nat (length A) + 2))) with (length f.2) by lia.
      replace (Z.to_nat (Z.of_nat (length A) + 2)) with (length A + 2)%nat by lia.
      rewrite skipn_app, skipn_all2 by lia. rewrite Nat.add_comm, Nat.add_sub.
      cbn. now rewrite drop_0, take_app_length. }
    rewrite Hslice. cbn [fold_steps].
    destruct (tlv_step f.1 f.2 st) as [st'| |] eqn:Hstep; cbn [obind]; try reflexivity.
    specialize (IH (pre ++ [f]) fuel st' Hok' ltac:(cbn in Hfuel; lia)).
    rewrite <- app_assoc in IH. cbn [app] in IH. rewrite <- IH.
    + f_equal; [now rewrite Htlv|].
      rewrite encode_fields_app, length_app. cbn [encode_fields concat map tlv_field length].
      rewrite app_nil_r. unfold tlv_field. cbn [length]. subst A. lia.
    + rewrite <- ?app_assoc in *. cbn [app] in *. exact Hlen.
Qed.

(** Decoding a buffer of well-formed fields folds the body over the fields
    and then runs the final [match]. *)
Lemma naddr_from_fields ck (fs : list (Z * list Z)) :
  Forall field_ok fs -> fs <> [] ->
  naddr_from_tlv ck (encode_fields fs) = (let? st := fold_steps fs scan_init in finish st).
Proof.
  intros Hok Hne. unfold naddr_from_tlv.
  pose proof (length_encode_fields_ge fs) as Hge.
  destruct fs as [|f fs']; [contradiction|].
  rewrite <- (scan_loop_fields ck (f :: fs') [] (S (length (encode_fields (f :: fs'))))
                scan_init Hok); cbn [app length] in *; try lia.
  reflexivity.
Qed.

Lemma junk_step ty raw st : is_junk (ty, raw) = true -> tlv_step ty raw st = Ok st.
Proof.
  unfold is_junk, tlv_step. cbn [fst snd].
  destruct ty as [|[[p|p|]|[p|p|]|]|p]; cbn; try discriminate; try reflexivity.
  destruct (pubkey_from_bytes raw true); try discriminate; reflexivity.
Qed.

Lemma fold_steps_skip_junk (fs : list (Z * list Z)) st :
  fold_steps fs st = fold_steps (List.filter (fun f => negb (is_junk f)) fs) st.
Proof.
  revert st. induction fs as [|[ty raw] fs IH]; intros st; [reflexivity|].
  cbn [List.filter]. destruct (is_junk (ty, raw)) eqn:J; cbn [negb fold_steps fst snd].
  - rewrite (junk_step ty raw st J). apply IH.
  - destruct (tlv_step ty raw st); cbn [obind]; auto.
Qed.

End TlvScan.

(** Claim C7: once the loop has scanned the whole buffer, decoding fails
    with the structural [InvalidNAddr] when the d tag, the kind or a valid
    author was not recovered; with all three it fails with the distinct
    [NonReplaceableAddr] exactly when the kind is not replaceable, and
    otherwise returns the address. *)
Theorem naddr_decode_required_fields (ck : bool) (tlv : list Z) (st : NA.scan_state) :
  NA.scan_loop ck (S (length tlv)) tlv 0 NA.scan_init = Ok st ->
  NA.InvalidNAddr <> NA.NonReplaceableAddr /\
  ((NA.maybe_d st = None \/ NA.maybe_kind st = None \/ NA.maybe_author st = None) ->
     NA.naddr_from_tlv ck tlv = Err NA.InvalidNAddr) /\
  (forall d k a,
     NA.maybe_d st = Some d -> NA.maybe_kind st = Some k -> NA.maybe_author st = Some a ->
     (NA.naddr_from_tlv ck tlv = Err NA.NonReplaceableAddr <-> EK.is_replaceable k = false) /\
     (EK.is_replaceable k = true ->
        NA.naddr_from_tlv ck tlv = Ok (NA.mkNAddr d (NA.s_relays st) k a))).
Proof.
  intros Hscan. unfold NA.naddr_from_tlv. rewrite Hscan. cbn [obind].
  split; [discriminate|]. split.
  - unfold NA.finish. intros [H|[H|H]]; rewrite H; [reflexivity| |];
      destruct (NA.maybe_d st); try reflexivity; rewrite ?H;
      destruct (NA.maybe_kind st); reflexivity.
  - intros d k a Hd Hk Ha. unfold NA.finish. rewrite Hd, Hk, Ha.
    destruct (EK.is_replaceable k); cbn; split; try split; intros; try discriminate;
      reflexivity.
Qed.

Lemma naddr_decode_required_fields_witness :
  NA.naddr_from_tlv true (NA.encode_fields [(0, [97]); (3, NA.to_be_bytes 30023)])
    = Err NA.InvalidNAddr /\
  NA.naddr_from_tlv true
    (NA.encode_fields [(0, [97]); (3, NA.to_be_bytes 1); (2, NA.generator_x)])
    = Err NA.NonReplaceableAddr.
Proof.
  split.
  - apply (proj1 (proj2 (naddr_decode_required_fields true
             (NA.encode_fields [(0, [97]); (3, NA.to_be_bytes 30023)])
             (NA.mkScan (Some [97]) [] (Some EK.LongFormContent) None)
             ltac:(vm_compute; reflexivity)))).
    right; right; reflexivity.
  - apply (proj2 (proj1 (proj2 (proj2 (naddr_decode_required_fields true
             (NA.encode_fields [(0, [97]); (3, NA.to_be_bytes 1); (2, NA.generator_x)])
             (NA.mkScan (Some [97]) [] (Some EK.TextNote) (Some (NA.mkPublicKey NA.generator_x)))
             ltac:(vm_compute; reflexivity)))
             [97] EK.TextNote (NA.mkPublicKey NA.generator_x) eq_refl eq_refl eq_refl))).
    reflexivity.
Defined.

(** Claim C8: the decoder skips a field whose type code is not 0, 1, 2 or
    3 (its bytes consumed, nothing stored) and drops an author field that is
    not a valid public key: decoding a buffer of well-formed fields gives
    the same result as decoding the buffer without those fields, wherever
    they sit; so a buffer whose valid d tag, kind and author decode to an
    address still decodes to it with such fields interleaved. *)
Theorem naddr_decode_skips_junk (ck : bool) (fs : list (Z * list Z)) :
  Forall NA.field_ok fs ->
  List.filter (fun f => negb (NA.is_junk f)) fs <> [] ->
  NA.naddr_from_tlv ck (NA.encode_fields fs) =
  NA.naddr_from_tlv ck (NA.encode_fields (List.filter (fun f => negb (NA.is_junk f)) fs)).
Proof.
  intros Hok Hne.
  assert (Hok' : Forall NA.field_ok (List.filter (fun f => negb (NA.is_junk f)) fs)).
  { clear Hne. induction Hok as [|x xs Hx Hxs IH]; cbn [List.filter]; [constructor|].
    destruct (negb (NA.is_junk x)); auto. }
  assert (Hfs : fs <> []) by (intros ->; contradiction).
  rewrite !naddr_from_fields by assumption.
  now rewrite (fold_steps_skip_junk fs).
Qed.

Lemma naddr_decode_skips_junk_witness :
  NA.naddr_from_tlv true
    (NA.encode_fields [(9, [1; 2]); (0, [97]); (2, repeat 255 32); (200, []);
                       (3, NA.to_be_bytes 30023); (2, [5]); (2, NA.generator_x)]) =
  Ok (NA.mkNAddr [97] [] EK.LongFormContent (NA.mkPublicKey NA.generator_x)).
Proof.
  rewrite (naddr_decode_skips_junk true).
  - vm_compute. reflexivity.
  - repeat constructor; cbn; lia.
  - vm_compute. discriminate.
Defined.

(** ** Bech32 round trip *)

Section Bech32RoundTrip.
Import Bech32.

Lemma land_lxor_distr a b c : Z.land (Z.lxor a b) c = Z.lxor (Z.land a c) (Z.land b c).
Proof. apply Z.bits_inj'; intros n _. rewrite Z.land_spec, !Z.lxor_spec, !Z.land_spec. btauto. Qed.

Lemma lxor_bound n a b :
  0 <= n -> 0 <= a < 2 ^ n -> 0 <= b < 2 ^ n -> 0 <= Z.lxor a b < 2 ^ n.
Proof.
  intros Hn Ha Hb.
  rewrite <- (Z.mod_small a (2 ^ n)), <- (Z.mod_small b (2 ^ n)) by lia.
  rewrite <- !Z.land_ones, <- land_lxor_distr, Z.land_ones by lia.
  apply Z.mod_pos_bound. lia.
Qed.

Lemma testbit_cond (p : bool) (k n : Z) :
  Z.testbit (if p then k else 0) n = p && Z.testbit k n.
Proof. destruct p; [reflexivity|]. now rewrite Z.testbit_0_l. Qed.

Ltac xor_ac := apply Z.bits_inj'; intros ? _; rewrite ?Z.lxor_spec, ?testbit_cond; btauto.

Lemma gen_term_bound g : 0 <= gen_term g < 2 ^ 30.
Proof.
  unfold gen_term.
  repeat (apply (lxor_bound 30); [lia| |]).
  all: destruct (Z.testbit _ _); lia.
Qed.

Lemma gen_term_lxor x y : gen_term (Z.lxor x y) = Z.lxor (gen_term x) (gen_term y).
Proof. unfold gen_term. rewrite !Z.lxor_spec. xor_ac. Qed.

Lemma polymod_step_lxor a b v w :
  polymod_step (Z.lxor a b) (Z.lxor v w) = Z.lxor (polymod_step a v) (polymod_step b w).
Proof.
  unfold polymod_step.
  rewrite Z.shiftr_lxor, gen_term_lxor, land_lxor_distr, Z.shiftl_lxor.
  xor_ac.
Qed.

Lemma polymod_step_zero_bound chk : 0 <= polymod_step chk 0 < 2 ^ 30.
Proof.
  unfold polymod_step. rewrite Z.lxor_0_r.
  apply (lxor_bound 30); [lia| |apply gen_term_bound].
  change 0x1ffffff with (Z.ones 25). rewrite Z.land_ones, Z.shiftl_mul_pow2 by lia.
  pose proof (Z.mod_pos_bound chk (2 ^ 25) ltac:(lia)). lia.
Qed.

Lemma polymod_step_small chk v :
  0 <= chk < 2 ^ 25 -> 0 <= v < 32 -> polymod_step chk v = chk * 32 + v.
Proof.
  intros Hc Hv. unfold polymod_step.
  rewrite Z.shiftr_div_pow2, Z.div_small by lia.
  change (gen_term 0) with 0. rewrite Z.lxor_0_r.
  change 0x1ffffff with (Z.ones 25). rewrite Z.land_ones, Z.mod_small by lia.
  rewrite Z.shiftl_mul_pow2 by lia. change (2 ^ 5) with 32.
  rewrite <- Z.add_nocarry_lxor; [reflexivity|].
  apply Z.bits_inj'; intros n Hn. rewrite Z.land_spec, Z.bits_0.
  destruct (Z.lt_ge_cases n 5).
  - change 32 with (2 ^ 5). now rewrite Z.mul_pow2_bits_low.
  - rewrite <- (Z.mod_small v (2 ^ 5)) by lia. rewrite Z.mod_pow2_bits_high by lia.
    apply andb_false_r.
Qed.

Lemma fold_polymod_lxor (l : list Z) c1 c2 :
  fold_left polymod_step l (Z.lxor c1 c2) =
  Z.lxor (fold_left polymod_step (map (fun _ => 0) l) c1) (fold_left polymod_step l c2).
Proof.
  revert c1 c2. induction l as [|v l IH]; intros c1 c2; [reflexivity|].
  cbn [fold_left map].
  rewrite <- (Z.lxor_0_l v) at 1. rewrite polymod_step_lxor. apply IH.
Qed.

Lemma land31 x k : 0 <= k -> Z.land (Z.shiftr x k) 31 = (x / 2 ^ k) mod 32.
Proof.
  intros Hk. change 31 with (Z.ones 5). rewrite Z.land_ones, Z.shiftr_div_pow2 by lia.
  reflexivity.
Qed.

Lemma recompose pm : 0 <= pm < 2 ^ 30 ->
  (((((pm / 2 ^ 25) mod 32 * 32 + (pm / 2 ^ 20) mod 32) * 32 + (pm / 2 ^ 15) mod 32) * 32
     + (pm / 2 ^ 10) mod 32) * 32 + (pm / 2 ^ 5) mod 32) * 32 + (pm / 2 ^ 0) mod 32 = pm.
Proof.
  intros H.
  assert (E2 : pm / 2 ^ 10 = pm / 32 / 32) by (rewrite Z.div_div by lia; reflexivity).
  assert (E3 : pm / 2 ^ 15 = pm / 32 / 32 / 32) by (rewrite !Z.div_div by lia; reflexivity).
  assert (E4 : pm / 2 ^ 20 = pm / 32 / 32 / 32 / 32)
    by (rewrite !Z.div_div by lia; reflexivity).
  assert (E5 : pm / 2 ^ 25 = pm / 32 / 32 / 32 / 32 / 32)
    by (rewrite !Z.div_div by lia; reflexivity).
  assert (B5 : 0 <= pm / 2 ^ 25 < 32)
    by (split; [apply Z.div_pos; lia | apply Z.div_lt_upper_bound; lia]).
  rewrite (Z.mod_small (pm / 2 ^ 25)) by exact B5.
  rewrite E2, E3, E4, E5 in *. change (2 ^ 5) with 32. change (2 ^ 0) with 1.
  rewrite Z.div_1_r. rewrite !Z.mod_eq by lia. lia.
Qed.

Lemma create_checksum_eq hrp fes pm :
  pm = Z.lxor (polymod (hrp_expand hrp ++ fes ++ [0;0;0;0;0;0])) BECH32_CONST ->
  create_checksum hrp fes =
  [(pm / 2 ^ 25) mod 32; (pm / 2 ^ 20) mod 32; (pm / 2 ^ 15) mod 32;
   (pm / 2 ^ 10) mod 32; (pm / 2 ^ 5) mod 32; (pm / 2 ^ 0) mod 32].
Proof.
  intros ->. unfold create_checksum. cbn [map]. rewrite !land31 by lia. reflexivity.
Qed.

(** The checksum makes the whole polymod come out as the Bech32 constant. *)
Lemma checksum_valid hrp fes :
  polymod (hrp_expand hrp ++ fes ++ create_checksum hrp fes) = BECH32_CONST.
Proof.
  set (P := polymod (hrp_expand hrp ++ fes)).
  set (Q := fold_left polymod_step [0;0;0;0;0;0] P).
  assert (EQ : polymod (hrp_expand hrp ++ fes ++ [0;0;0;0;0;0]) = Q)
    by (unfold Q, P, polymod; now rewrite app_assoc, fold_left_app).
  rewrite (create_checksum_eq hrp fes (Z.lxor Q BECH32_CONST)) by now rewrite EQ.
  set (pm := Z.lxor Q BECH32_CONST).
  assert (HQ : 0 <= Q < 2 ^ 30) by (unfold Q; cbn [fold_left]; apply polymod_step_zero_bound).
  assert (Hpm : 0 <= pm < 2 ^ 30) by (unfold pm, BECH32_CONST; apply lxor_bound; lia).
  unfold polymod at 1. rewrite app_assoc, fold_left_app.
  change (fold_left polymod_step (hrp_expand hrp ++ fes) 1) with P.
  rewrite <- (Z.lxor_0_r P), fold_polymod_lxor. cbn [map]. fold Q.
  pose proof (Z.mod_pos_bound (pm / 2 ^ 25) 32 ltac:(lia)).
  pose proof (Z.mod_pos_bound (pm / 2 ^ 20) 32 ltac:(lia)).
  pose proof (Z.mod_pos_bound (pm / 2 ^ 15) 32 ltac:(lia)).
  pose proof (Z.mod_pos_bound (pm / 2 ^ 10) 32 ltac:(lia)).
  pose proof (Z.mod_pos_bound (pm / 2 ^ 5) 32 ltac:(lia)).
  pose proof (Z.mod_pos_bound (pm / 2 ^ 0) 32 ltac:(lia)).
  cbn [fold_left].
  repeat match goal with
         | |- context [polymod_step ?c ?v] => rewrite (polymod_step_small c v) by lia
         end.
  rewrite Z.mul_0_l, Z.add_0_l, recompose by exact Hpm.
  unfold pm. now rewrite <- Z.lxor_assoc, Z.lxor_nilpotent, Z.lxor_0_l.
Qed.

Lemma length_bits_be n x : length (bits_be n x) = n.
Proof. induction n as [|n IH]; cbn; auto. Qed.

Lemma regroup_full k pad (l1 l2 cur : list bool) :
  l1 <> [] -> (length cur + length l1 = k)%nat ->
  regroup k pad cur (l1 ++ l2) = of_bits (cur ++ l1) :: regroup k pad [] l2.
Proof.
  revert cur. induction l1 as [|b l1 IH]; intros cur Hne Hlen; [congruence|].
  change ((b :: l1) ++ l2) with (b :: (l1 ++ l2)). cbn [regroup].
  destruct l1 as [|b' l1'].
  - rewrite (proj2 (Nat.eqb_eq _ _)) by (rewrite length_app; cbn [length] in *; lia).
    reflexivity.
  - rewrite (proj2 (Nat.eqb_neq _ _)) by (rewrite length_app; cbn [length] in *; lia).
    rewrite IH by (try discriminate; rewrite length_app; cbn [length] in *; lia).
    now rewrite <- app_assoc.
Qed.

Lemma regroup_short k pad (cur l : list bool) :
  (length cur + length l < k)%nat ->
  regroup k pad cur l =
  if pad && negb (Nat.eqb (length (cur ++ l)) 0)
  then [of_bits (cur ++ l ++ repeat false (k - length (cur ++ l)))] else [].
Proof.
  revert cur. induction l as [|b l IH]; intros cur Hlen; cbn [regroup].
  - now rewrite !app_nil_r.
  - rewrite (proj2 (Nat.eqb_neq _ _)) by (rewrite length_app; cbn [length] in *; lia).
    rewrite IH by (rewrite length_app; cbn [length] in *; lia).
    now rewrite <- !app_assoc.
Qed.

(** Padded regrouping cuts the stream into [k]-bit chunks, the last one
    completed with fewer than [k] zero bits. *)
Lemma regroup_chunks k (l : list bool) :
  (0 < k)%nat ->
  exists ch p, regroup k true [] l = map of_bits ch /\
    Forall (fun c => length c = k) ch /\ concat ch = l ++ repeat false p /\ (p < k)%nat.
Proof.
  intros Hk. induction l as [l IH] using (induction_ltof1 _ (@length bool)).
  destruct (Nat.lt_ge_cases (length l) k) as [Hs|Hl].
  - destruct l as [|b l'].
    + exists [], 0%nat. repeat split; auto.
    + exists [(b :: l') ++ repeat false (k - length (b :: l'))], (k - length (b :: l'))%nat.
      rewrite regroup_short by (cbn [length] in *; lia). cbn [app length andb negb Nat.eqb].
      repeat split.
      * constructor; [|constructor]. cbn [length]. rewrite length_app, repeat_length. cbn [length] in *. lia.
      * cbn [concat]. now rewrite app_nil_r.
      * cbn [length] in *. lia.
  - rewrite <- (firstn_skipn k l).
    destruct (IH (skipn k l)) as (ch & p & E & Hc & Hcat & Hp).
    { unfold ltof. rewrite length_skipn. lia. }
    exists (firstn k l :: ch), p.
    rewrite regroup_full.
    + rewrite E. repeat split.
      * constructor; [|exact Hc]. rewrite length_firstn. lia.
      * cbn [concat]. rewrite Hcat. now rewrite app_assoc.
      * exact Hp.
    + intros H. apply (f_equal (@length bool)) in H. rewrite length_firstn in H.
      cbn in H. lia.
    + rewrite length_firstn. cbn [length]. lia.
Qed.

Lemma bits_of_bits5 (c : list bool) : length c = 5%nat -> bits_be 5 (of_bits c) = c.
Proof.
  intros H. destruct c as [|b1 [|b2 [|b3 [|b4 [|b5 [|]]]]]]; try discriminate.
  destruct b1, b2, b3, b4, b5; reflexivity.
Qed.

Lemma of_bits5_bound (c : list bool) : length c = 5%nat -> 0 <= of_bits c < 32.
Proof.
  intros H. destruct c as [|b1 [|b2 [|b3 [|b4 [|b5 [|]]]]]]; try discriminate.
  destruct b1, b2, b3, b4, b5; cbn; lia.
Qed.

(** A property of the integers [0 <= x < n], checked by enumeration. *)
Lemma Z_range_check (P : Z -> bool) (n : nat) :
  forallb P (map Z.of_nat (seq 0 n)) = true -> forall x, 0 <= x < Z.of_nat n -> P x = true.
Proof.
  intros H x Hx. rewrite forallb_forall in H.
  replace x with (Z.of_nat (Z.to_nat x)) by lia.
  apply H, in_map, in_seq. lia.
Qed.

Lemma of_bits_bits8 b : 0 <= b < 256 -> of_bits (bits_be 8 b) = b.
Proof.
  intros Hb. apply Z.eqb_eq.
  exact (Z_range_check (fun b => of_bits (bits_be 8 b) =? b) 256
           ltac:(vm_compute; reflexivity) b Hb).
Qed.

Lemma regroup_bytes (data : list Z) p :
  Forall (fun b => 0 <= b < 256) data -> (p < 8)%nat ->
  regroup 8 false [] (concat (map (bits_be 8) data) ++ repeat false p) = data.
Proof.
  intros Hd Hp. induction Hd as [|b data Hb Hd IH].
  - cbn [map concat app]. rewrite regroup_short by (rewrite repeat_length; cbn; lia).
    reflexivity.
  - cbn [map concat]. rewrite <- app_assoc, regroup_full.
    + now rewrite IH, app_nil_l, of_bits_bits8.
    + intros H. apply (f_equal (@length bool)) in H. rewrite length_bits_be in H.
      discriminate.
    + now rewrite length_bits_be.
Qed.

Lemma to_fes_chunks (data : list Z) :
  exists ch p, to_fes data = map of_bits ch /\ Forall (fun c => length c = 5%nat) ch /\
    concat ch = concat (map (bits_be 8) data) ++ repeat false p /\ (p < 5)%nat.
Proof. apply regroup_chunks. lia. Qed.

Lemma map_bits_of_bits5 (ch : list (list bool)) :
  Forall (fun c => length c = 5%nat) ch -> map (bits_be 5) (map of_bits ch) = ch.
Proof.
  induction 1 as [|c ch Hc1 _ IH]; [reflexivity|].
  cbn [map]. now rewrite bits_of_bits5, IH.
Qed.

Lemma fes_to_bytes_to_fes (data : list Z) :
  Forall (fun b => 0 <= b < 256) data -> fes_to_bytes (to_fes data) = data.
Proof.
  intros Hd. destruct (to_fes_chunks data) as (ch & p & E & Hc & Hcat & Hp).
  unfold fes_to_bytes. rewrite E.
  rewrite map_bits_of_bits5, Hcat by exact Hc. apply regroup_bytes; [exact Hd | lia].
Qed.

Lemma to_fes_bound (data : list Z) : Forall (fun x => 0 <= x < 32) (to_fes data).
Proof.
  destruct (to_fes_chunks data) as (ch & p & E & Hc & _ & _). rewrite E.
  clear E. induction Hc as [|c ch Hc1 _ IH]; cbn [map]; constructor; [now apply of_bits5_bound | exact IH].
Qed.

Lemma CHARSET_chars :
  forallb (fun c => negb (c =? 49) && negb (is_upper c)) CHARSET = true.
Proof. vm_compute. reflexivity. Qed.

Lemma fe_char_char x : fe_char x <> 49 /\ is_upper (fe_char x) = false.
Proof.
  unfold fe_char. destruct (nth_in_or_default (Z.to_nat x) CHARSET 0) as [H|H].
  - pose proof (proj1 (forallb_forall _ _) CHARSET_chars _ H) as Hc.
    apply andb_prop in Hc as [H1 H2]. apply negb_true_iff in H1, H2.
    split; [now apply Z.eqb_neq | exact H2].
  - rewrite H. split; [discriminate | reflexivity].
Qed.

Lemma fe_of_char_fe_char x : 0 <= x < 32 -> fe_of_char (fe_char x) = Some x.
Proof.
  intros Hx.
  pose proof (Z_range_check
                (fun x => match fe_of_char (fe_char x) with Some y => y =? x | None => false end)
                32 ltac:(vm_compute; reflexivity) x Hx) as H.
  cbn beta in H. destruct (fe_of_char (fe_char x)); [|discriminate].
  apply Z.eqb_eq in H. now subst.
Qed.

Lemma map_opt_fe_chars (l : list Z) :
  Forall (fun x => 0 <= x < 32) l -> map_opt fe_of_char (map fe_char l) = Some l.
Proof.
  induction 1 as [|x l Hx _ IH]; [reflexivity|].
  cbn [map map_opt]. now rewrite fe_of_char_fe_char, IH.
Qed.

Lemma existsb_upper_fe_chars (l : list Z) : existsb is_upper (map fe_char l) = false.
Proof. induction l as [|x l IH]; [reflexivity|]. cbn [map existsb]. now rewrite (proj2 (fe_char_char x)). Qed.

Lemma map_to_lower_id (s : list Z) : existsb is_upper s = false -> map to_lower s = s.
Proof.
  induction s as [|c s IH]; [reflexivity|]. cbn [existsb map].
  intros H. apply orb_false_iff in H as [H1 H2]. unfold to_lower at 1. rewrite H1.
  now rewrite IH.
Qed.

Lemma index_of_app (x : Z) (l1 l2 : list Z) :
  ~ In x l1 -> index_of x (l1 ++ x :: l2) = Some (length l1).
Proof.
  induction l1 as [|y l1 IH]; intros Hn; cbn [app index_of length].
  - now rewrite Z.eqb_refl.
  - rewrite (proj2 (Z.eqb_neq x y)) by (intros ->; apply Hn; now left).
    rewrite IH by (intros H; apply Hn; now right). reflexivity.
Qed.

Lemma split_last_one_app (hrp dp : list Z) :
  ~ In 49 dp -> split_last_one (hrp ++ [49] ++ dp) = Some (hrp, dp).
Proof.
  intros Hn. unfold split_last_one.
  rewrite !rev_app_distr, <- app_assoc. cbn [rev app].
  rewrite index_of_app by (now rewrite <- in_rev).
  rewrite skipn_app, firstn_app, skipn_all2, firstn_all2 by lia.
  replace (S (length (rev dp)) - length (rev dp))%nat with 1%nat by lia.
  replace (length (rev dp) - length (rev dp))%nat with 0%nat by lia.
  cbn [skipn firstn app]. now rewrite skipn_O, app_nil_r, !rev_involutive.
Qed.

Lemma create_checksum_bound hrp fes : Forall (fun x => 0 <= x < 32) (create_checksum hrp fes).
Proof.
  rewrite (create_checksum_eq hrp fes _ eq_refl).
  repeat constructor; apply Z.mod_pos_bound; lia.
Qed.

Lemma length_create_checksum hrp fes : length (create_checksum hrp fes) = 6%nat.
Proof. reflexivity. Qed.

(** [bech32::decode] inverts [bech32::encode::<Bech32>] on a lower-case
    human-readable part. *)
Lemma decode_encode (hrp data : list Z) :
  hrp_ok hrp = true -> existsb is_upper hrp = false ->
  Forall (fun b => 0 <= b < 256) data ->
  decode (encode hrp data) = Some (hrp, data).
Proof.
  intros Hok Hup Hd. unfold decode, encode.
  set (F := to_fes data). set (L := F ++ create_checksum hrp F).
  assert (HL : Forall (fun x => 0 <= x < 32) L)
    by (apply Forall_app; split; [apply to_fes_bound | apply create_checksum_bound]).
  assert (Hs : existsb is_upper (hrp ++ [49] ++ map fe_char L) = false)
    by (rewrite !existsb_app, Hup, existsb_upper_fe_chars; reflexivity).
  rewrite Hs. cbn [andb]. rewrite (map_to_lower_id _ Hs).
  rewrite split_last_one_app.
  2:{ intros Hin. apply in_map_iff in Hin as (x & Hx & _).
      exact (proj1 (fe_char_char x) Hx). }
  rewrite Hok. cbn [negb]. rewrite (map_opt_fe_chars L HL).
  assert (Hlen : length L = (length F + 6)%nat)
    by (unfold L; now rewrite length_app, length_create_checksum).
  rewrite Hlen. rewrite (proj2 (Nat.ltb_ge _ _)) by lia.
  unfold L. rewrite checksum_valid. cbn [orb Z.eqb BECH32_CONST BECH32M_CONST].
  replace (length F + 6 - 6)%nat with (length F) by lia.
  rewrite firstn_app, firstn_all, Nat.sub_diag. cbn [firstn]. rewrite app_nil_r.
  unfold F. now rewrite fes_to_bytes_to_fes.
Qed.

End Bech32RoundTrip.

(** ** The naddr buffer of an address *)

Section NAddrRoundTrip.
Import NA.

Lemma in_range_iff lo hi b : in_range lo hi b = true <-> lo <= b <= hi.
Proof. unfold in_range. rewrite andb_true_iff, !Z.leb_le. tauto. Qed.

Lemma utf8_second_range b c : utf8_second b c = true -> 0x80 <= c <= 0xBF.
Proof.
  unfold utf8_second, utf8_cont. intros H.
  repeat case_match; apply in_range_iff in H; lia.
Qed.

(** The bytes of valid UTF-8 are bytes. *)
Lemma utf8_valid_bytes (l : list Z) :
  utf8_valid l = true -> Forall (fun b => 0 <= b < 256) l.
Proof.
  induction l as [l IH] using (induction_ltof1 _ (@length Z)).
  destruct l as [|b r]; intros H; [constructor|].
  cbn [utf8_valid] in H.
  destruct (in_range 0 0x7F b) eqn:E1.
  { apply in_range_iff in E1. constructor; [lia|].
    apply IH; [unfold ltof; cbn; lia | exact H]. }
  destruct (in_range 0xC2 0xDF b) eqn:E2.
  { destruct r as [|c1 r1]; [discriminate|].
    apply andb_prop in H as [Hc1 Hr1]. unfold utf8_cont in Hc1.
    apply in_range_iff in E2, Hc1.
    constructor; [lia|]. constructor; [lia|].
    apply IH; [unfold ltof; cbn; lia | exact Hr1]. }
  destruct (in_range 0xE0 0xEF b) eqn:E3.
  { destruct r as [|c1 [|c2 r2]]; try discriminate.
    apply andb_prop in H as [H Hr2]. apply andb_prop in H as [Hc1 Hc2].
    apply utf8_second_range in Hc1. unfold utf8_cont in Hc2.
    apply in_range_iff in E3, Hc2.
    constructor; [lia|]. constructor; [lia|]. constructor; [lia|].
    apply IH; [unfold ltof; cbn; lia | exact Hr2]. }
  destruct (in_range 0xF0 0xF4 b) eqn:E4; [|discriminate].
  destruct r as [|c1 [|c2 [|c3 r3]]]; try discriminate.
  apply andb_prop in H as [H Hr3]. apply andb_prop in H as [H Hc3].
  apply andb_prop in H as [Hc1 Hc2].
  apply utf8_second_range in Hc1. unfold utf8_cont in Hc2, Hc3.
  apply in_range_iff in E4, Hc2, Hc3.
  constructor; [lia|]. constructor; [lia|]. constructor; [lia|]. constructor; [lia|].
  apply IH; [unfold ltof; cbn; lia | exact Hr3].
Qed.

Lemma from_utf8_ok (raw : list Z) : utf8_valid raw = true -> from_utf8 raw = Ok raw.
Proof. unfold from_utf8. now intros ->. Qed.

Lemma bytes_ok_Forall (l : list Z) : bytes_ok l = true -> Forall (fun b => 0 <= b < 256) l.
Proof.
  unfold bytes_ok. induction l as [|b l IH]; cbn [forallb]; intros H; [constructor|].
  apply andb_prop in H as [Hb Hl]. apply andb_prop in Hb as [H1 H2].
  apply Z.leb_le in H1, H2. constructor; [lia | auto].
Qed.

Lemma pubkey_from_bytes_valid (P : PublicKey) :
  pubkey_valid P = true -> pubkey_from_bytes (pk_bytes P) true = Ok P.
Proof.
  unfold pubkey_valid, pubkey_from_bytes. intros H.
  apply andb_prop in H as [H Hx]. apply andb_prop in H as [Hl Hb].
  rewrite Hl, Hb, Hx. cbn. now destruct P.
Qed.

Lemma to_be_bytes_bound u : Forall (fun b => 0 <= b < 256) (to_be_bytes u).
Proof.
  unfold to_be_bytes. change 255 with (Z.ones 8).
  rewrite !Z.land_ones by lia.
  repeat constructor; apply Z.mod_pos_bound; lia.
Qed.

Lemma encode_fields_bytes (fs : list (Z * list Z)) :
  Forall (fun f => 0 <= f.1 < 256 /\ (length f.2 < 256)%nat /\
                   Forall (fun b => 0 <= b < 256) f.2) fs ->
  Forall (fun b => 0 <= b < 256) (encode_fields fs).
Proof.
  induction 1 as [|f fs (Hty & Hlen & Hb) _ IH]; [constructor|].
  rewrite encode_fields_cons. constructor; [lia|]. constructor; [lia|].
  apply Forall_app. split; assumption.
Qed.

Lemma naddr_tlv_fields (dd : list Z) (rs : list (list Z)) k P :
  (length dd <= 255)%nat -> Forall (fun r => length r <= 255)%nat rs ->
  length (pk_bytes P) = 32%nat ->
  naddr_tlv (mkNAddr dd rs k P) =
  encode_fields ([(0, dd)] ++ map (fun r => (1, r)) rs ++
                 [(3, to_be_bytes (EK.to_u32 k)); (2, pk_bytes P)]).
Proof.
  intros Hd Hr HP. unfold naddr_tlv, encode_fields, as_bytes. cbn [d relays kind author].
  assert (Hrel : concat (map (fun r => [1; Z.of_nat (length r) mod 256] ++ r) rs) =
                 concat (map tlv_field (map (fun r => (1, r)) rs))).
  { induction Hr as [|r rs Hr1 _ IH]; [reflexivity|].
    cbn [map concat]. rewrite IH, Z.mod_small by lia. reflexivity. }
  rewrite Hrel, !map_app, !concat_app. unfold tlv_field. cbn [map concat fst snd].
  rewrite Z.mod_small, HP, !app_nil_r by lia. reflexivity.
Qed.

End NAddrRoundTrip.



(** Claim C6, counterexample: [as_bech32_string] writes a relay's length
    with [as u8], so a relay of 256 bytes gets the length byte 0 and its
    bytes are read back as further fields.  With the URL
    ["wss://" ++ 250 x "a"] decoding fails with [InvalidProfile]; with 256
    NUL bytes (valid UTF-8 as well) it succeeds with an empty d tag, an
    address different from the one encoded.  Both build profiles agree. *)
Theorem naddr_roundtrip_long_relay :
  NA.pubkey_valid (NA.mkPublicKey NA.generator_x) = true /\
  NA.utf8_valid (bytes_of_string "wss://" ++ repeat 97 250) = true /\
  length (bytes_of_string "wss://" ++ repeat 97 250) = 256%nat /\
  (forall ck, NA.try_from_bech32_string ck
     (NA.as_bech32_string
        (NA.mkNAddr (bytes_of_string "hello")
           [bytes_of_string "wss://" ++ repeat 97 250; bytes_of_string "wss://b"]
           EK.LongFormContent (NA.mkPublicKey NA.generator_x))) = Err NA.InvalidProfile) /\
  (forall ck, NA.try_from_bech32_string ck
     (NA.as_bech32_string
        (NA.mkNAddr (bytes_of_string "hello") [repeat 0 256; bytes_of_string "wss://b"]
           EK.LongFormContent (NA.mkPublicKey NA.generator_x))) =
   Ok (NA.mkNAddr [] [[]; bytes_of_string "wss://b"] EK.LongFormContent
         (NA.mkPublicKey NA.generator_x))).
Proof.
  split; [vm_compute; reflexivity|]. split; [vm_compute; reflexivity|].
  split; [reflexivity|].
  split; intros [|]; vm_compute; reflexivity.
Qed.

(** Claim C6, amended: for every public key [P] and relays [R1], [R2] that
    are valid UTF-8 of at most 255 bytes each, encoding
    [{d: "hello", kind: LongFormContent, author: P, relays: [R1, R2]}] with
    [as_bech32_string] and decoding it with [try_from_bech32_string] gives
    back exactly that address, relays included, in both build profiles. *)
Theorem naddr_roundtrip (ck : bool) (P : NA.PublicKey) (R1 R2 : list Z) :
  NA.pubkey_valid P = true ->
  NA.utf8_valid R1 = true -> NA.utf8_valid R2 = true ->
  (length R1 <= 255)%nat -> (length R2 <= 255)%nat ->
  NA.try_from_bech32_string ck
    (NA.as_bech32_string
       (NA.mkNAddr (bytes_of_string "hello") [R1; R2] EK.LongFormContent P)) =
  Ok (NA.mkNAddr (bytes_of_string "hello") [R1; R2] EK.LongFormContent P).
Proof.
  intros HP H1 H2 L1 L2.
  assert (HPl : length (NA.pk_bytes P) = 32%nat).
  { unfold NA.pubkey_valid in HP. apply andb_prop in HP as [HP _].
    apply andb_prop in HP as [HP _]. now apply Nat.eqb_eq. }
  unfold NA.try_from_bech32_string, NA.as_bech32_string.
  rewrite naddr_tlv_fields;
    [| cbn; lia | repeat (constructor; [assumption|]); constructor | exact HPl].
  cbn [map app].
  assert (HPb := bytes_ok_Forall _ (proj2 (andb_prop _ _ (proj1 (andb_prop _ _ HP))))).
  rewrite decode_encode; [| reflexivity | reflexivity |].
  2:{ apply encode_fields_bytes.
      constructor; [cbn [fst snd]; split; [lia | split; [cbn; lia | now apply utf8_valid_bytes]]|].
      constructor; [cbn [fst snd]; split; [lia | split; [lia | now apply utf8_valid_bytes]]|].
      constructor; [cbn [fst snd]; split; [lia | split; [lia | now apply utf8_valid_bytes]]|].
      constructor; [cbn [fst snd]; split; [lia | split; [cbn; lia | apply to_be_bytes_bound]]|].
      constructor; [cbn [fst snd]; split; [lia | split; [lia | exact HPb]]|].
      constructor. }
  rewrite bool_decide_true by reflexivity. cbn [negb].
  rewrite naddr_from_fields; [| |discriminate].
  2:{ unfold NA.field_ok. cbn [fst snd].
      constructor; [cbn [fst snd]; split; [lia | cbn; lia]|].
      constructor; [cbn [fst snd]; split; [lia | lia]|].
      constructor; [cbn [fst snd]; split; [lia | lia]|].
      constructor; [cbn [fst snd]; split; [lia | cbn; lia]|].
      constructor; [cbn [fst snd]; split; [lia | lia]|].
      constructor. }
  cbn [NA.fold_steps fst snd NA.tlv_step].
  rewrite (from_utf8_ok (bytes_of_string "hello")) by reflexivity.
  rewrite (from_utf8_ok R1 H1), (from_utf8_ok R2 H2), (pubkey_from_bytes_valid P HP).
  replace (EK.from_u32 (NA.be_to_Z (NA.to_be_bytes (EK.to_u32 EK.LongFormContent))))
    with EK.LongFormContent by (vm_compute; reflexivity).
  reflexivity.
Qed.

Lemma naddr_roundtrip_witness :
  NA.try_from_bech32_string true
    (NA.as_bech32_string
       (NA.mkNAddr (bytes_of_string "hello")
          [bytes_of_string "wss://relay.damus.io"; bytes_of_string "wss://nos.lol"]
          EK.LongFormContent (NA.mkPublicKey NA.generator_x))) =
  Ok (NA.mkNAddr (bytes_of_string "hello")
        [bytes_of_string "wss://relay.damus.io"; bytes_of_string "wss://nos.lol"]
        EK.LongFormContent (NA.mkPublicKey NA.generator_x)).
Proof.
  apply naddr_roundtrip; first [vm_compute; reflexivity | cbn; lia].
Defined.

(** ** Deserialising filters *)

Section FilterJson.
Import J.

Lemma de_vec_string_array (vs : list F.str) :
  de_vec de_string (JArr (map JStr vs)) = Ok vs.
Proof. induction vs as [|s vs IH]; [reflexivity|]. cbn in *. now rewrite IH. Qed.

Lemma de_vec_string_inv (v : json) (vs : list F.str) :
  de_vec de_string v = Ok vs -> v = JArr (map JStr vs).
Proof.
  destruct v as [| | | |l|]; cbn; try discriminate. revert vs.
  induction l as [|x l IH]; intros vs H; cbn in H.
  - now injection H as <-.
  - destruct x; cbn in H; try discriminate.
    destruct (map_out de_string l) as [ys| |] eqn:Hl; cbn in H; try discriminate.
    injection H as <-. specialize (IH ys eq_refl). injection IH as ->. reflexivity.
Qed.

Lemma known_key_false (k : F.str) :
  known_key k = false ->
  k <> bytes_of_string "ids" /\ k <> bytes_of_string "authors" /\
  k <> bytes_of_string "kinds" /\ k <> bytes_of_string "since" /\
  k <> bytes_of_string "until" /\ k <> bytes_of_string "limit".
Proof.
  unfold known_key. intros H. apply bool_decide_eq_false in H.
  repeat split; intros ->; apply H; cbn; set_solver.
Qed.

Lemma filter_visit_map_app (l1 l2 : list (F.str * json)) s c :
  filter_visit_map (l1 ++ l2) s c =
  (let? r := filter_visit_map l1 s c in filter_visit_map l2 r.1 (rev r.2)).
Proof.
  revert s c. induction l1 as [|[k v] l1 IH]; intros s c.
  - cbn [app filter_visit_map obind fst snd]. now rewrite rev_involutive.
  - cbn [app filter_visit_map].
    repeat match goal with
      | |- context [if bool_decide ?P then _ else _] => destruct (bool_decide P)
      end;
    try (destruct (de_field _ _ _ _); cbn [obind]; auto; fail); apply IH.
Qed.

(** The entries collected before the call come first, in order. *)
Lemma filter_visit_map_collect (l : list (F.str * json)) s c :
  filter_visit_map l s c = (let? r := filter_visit_map l s [] in Ok (r.1, rev c ++ r.2)).
Proof.
  revert s c. induction l as [|[k v] l IH]; intros s c.
  - cbn. now rewrite app_nil_r.
  - cbn [filter_visit_map].
    repeat match goal with
      | |- context [if bool_decide ?P then _ else _] => destruct (bool_decide P)
      end;
    try (destruct (de_field _ _ _ _); cbn [obind]; auto; fail).
    rewrite IH, (IH s [(k, v)]).
    destruct (filter_visit_map l s []) as [[s' c']| |]; cbn [obind fst snd]; try reflexivity.
    cbn [rev app]. now rewrite <- app_assoc.
Qed.

(** Splitting the object: the fields of the second part are read from the
    state the first part leaves, the collected entries are concatenated. *)
Lemma filter_visit_map_join (pre post : list (F.str * json)) s :
  filter_visit_map (pre ++ post) s [] =
  (let? r1 := filter_visit_map pre s [] in
   let? r2 := filter_visit_map post r1.1 [] in Ok (r2.1, r1.2 ++ r2.2)).
Proof.
  rewrite filter_visit_map_app.
  destruct (filter_visit_map pre s []) as [[s1 c1]| |]; cbn [obind fst snd]; try reflexivity.
  rewrite filter_visit_map_collect, rev_involutive. reflexivity.
Qed.

(** An entry with an unknown key, anywhere in the object, is collected
    between the entries collected before and after it. *)
Lemma filter_visit_map_split (pre post : list (F.str * json)) (k : F.str) (v : json) s :
  known_key k = false ->
  filter_visit_map (pre ++ (k, v) :: post) s [] =
  (let? r1 := filter_visit_map pre s [] in
   let? r2 := filter_visit_map post r1.1 [] in Ok (r2.1, r1.2 ++ (k, v) :: r2.2)).
Proof.
  intros Hk. rewrite filter_visit_map_app.
  destruct (filter_visit_map pre s []) as [[s1 c1]| |]; cbn [obind fst snd]; try reflexivity.
  apply known_key_false in Hk as (H1 & H2 & H3 & H4 & H5 & H6). cbn [filter_visit_map].
  rewrite !bool_decide_false by assumption.
  rewrite filter_visit_map_collect.
  destruct (filter_visit_map post s1 []) as [[s2 c2]| |]; cbn [obind fst snd]; try reflexivity.
  cbn [rev]. rewrite rev_involutive, <- app_assoc. reflexivity.
Qed.

(** The collected entries are entries of the object (or collected before). *)
Lemma filter_visit_map_collect_Forall (P : F.str * json -> Prop) (l : list (F.str * json)) s c r :
  Forall P l -> Forall P c -> filter_visit_map l s c = Ok r -> Forall P r.2.
Proof.
  intros Hl. revert s c. induction Hl as [|[k v] l Hkv Hl IH]; intros s c Hc Hr.
  - cbn in Hr. injection Hr as <-. cbn [snd]. now apply Forall_rev.
  - cbn [filter_visit_map] in Hr.
    repeat match goal with
      | H : context [if bool_decide ?P then _ else _] |- _ => destruct (bool_decide P)
      end;
    try (destruct (de_field _ _ _ _); cbn [obind] in Hr; [eapply IH; eauto | discriminate..]; fail).
    eapply IH; [|exact Hr]. now constructor.
Qed.

Lemma known_key_tag (ch : Z) : known_key [35; ch] = false.
Proof.
  unfold known_key. apply bool_decide_eq_false. intros Hin.
  apply list_elem_of_In in Hin. cbn in Hin.
  repeat destruct Hin as [Hin|Hin]; try discriminate; contradiction.
Qed.

Lemma tags_visit_map_app (c1 c2 : list (F.str * json)) m :
  tags_visit_map (c1 ++ c2) m = (let? m' := tags_visit_map c1 m in tags_visit_map c2 m').
Proof.
  revert m. induction c1 as [|[k v] c1 IH]; intros m; [reflexivity|].
  cbn [app tags_visit_map]. destruct (de_vec de_string v); cbn [obind]; try reflexivity.
  repeat case_match; apply IH.
Qed.

(** A value stored under [ch] survives the later entries when none of them
    has the key ['#', ch]. *)
Lemma tags_visit_map_insert (c : list (F.str * json)) (ch : Z) (vs : list F.str) m :
  Forall (fun e => e.1 <> [35; ch]) c ->
  tags_visit_map c (<[ch := vs]> m) = (let? m' := tags_visit_map c m in Ok (<[ch := vs]> m')).
Proof.
  intros Hc. revert m. induction Hc as [|[k v] c Hk Hc IH]; intros m; [reflexivity|].
  cbn [tags_visit_map]. destruct (de_vec de_string v) as [value| |]; cbn [obind]; try reflexivity.
  cbn [fst] in Hk.
  repeat case_match; subst; try apply IH.
  rewrite insert_insert_ne by (intros ->; contradiction). apply IH.
Qed.

End FilterJson.

(** Claim C10, as stated, fails: an extra key whose value is not an array
    of strings is not discarded silently, since [visit_map] reads every
    entry as [(String, Vec<String>)]: the JSON object [{"foo": 1}] is
    rejected, while [{"foo": ["a"]}] gives the default filter. *)
Theorem deserialize_filter_unknown_key_non_array :
  J.deserialize_filter [(bytes_of_string "foo", J.JNum 1)] = Err J.InvalidType /\
  J.deserialize_filter [(bytes_of_string "foo", J.JArr [J.JStr [97]])] = Ok F.filter_default.
Proof. split; reflexivity. Qed.

(** Claim C10, amended: when a [Filter] is deserialised from a JSON object,
    an extra key (not ids/authors/kinds/since/until/limit), wherever it
    stands in the object, whose value is an array of strings is discarded if
    it is not ['#'] followed by exactly one character (the result is the one
    without that entry), and stored under that character if it is (replacing
    an earlier entry for it, when no later entry has the same key); an extra
    key whose value is anything else makes deserialisation fail. *)
Theorem deserialize_filter_extra_keys :
  (forall (pre post : list (F.str * J.json)) (k : F.str) (vs : list F.str),
     J.known_key k = false -> J.tag_key k = None ->
     J.deserialize_filter (pre ++ (k, J.JArr (map J.JStr vs)) :: post) =
     J.deserialize_filter (pre ++ post)) /\
  (forall (pre post : list (F.str * J.json)) (ch : Z) (vs : list F.str),
     Forall (fun e => e.1 <> [35; ch]) post ->
     J.deserialize_filter (pre ++ ([35; ch], J.JArr (map J.JStr vs)) :: post) =
     (let? f := J.deserialize_filter (pre ++ post) in
      Ok (F.set_tags f (<[ch := vs]> (F.tags f))))) /\
  (forall (pre post : list (F.str * J.json)) (k : F.str) (v : J.json),
     J.known_key k = false -> (forall vs, v <> J.JArr (map J.JStr vs)) ->
     forall f, J.deserialize_filter (pre ++ (k, v) :: post) <> Ok f).
Proof.
  unfold J.deserialize_filter, J.deserialize_tags. split; [|split].
  - intros pre post k vs Hk Htag.
    rewrite filter_visit_map_split by exact Hk. rewrite filter_visit_map_join.
    destruct (J.filter_visit_map pre J.seen_none []) as [[s1 c1]| |]; cbn [obind fst snd];
      try reflexivity.
    destruct (J.filter_visit_map post s1 []) as [[s2 c2]| |]; cbn [obind fst snd];
      try reflexivity.
    rewrite !tags_visit_map_app.
    destruct (J.tags_visit_map c1 ∅) as [m| |]; cbn [obind]; try reflexivity.
    cbn [J.tags_visit_map]. rewrite de_vec_string_array. cbn [obind].
    unfold J.tag_key in Htag. repeat case_match; try congruence; reflexivity.
  - intros pre post ch vs Hpost.
    rewrite filter_visit_map_split by apply known_key_tag. rewrite filter_visit_map_join.
    destruct (J.filter_visit_map pre J.seen_none []) as [[s1 c1]| |]; cbn [obind fst snd];
      try reflexivity.
    destruct (J.filter_visit_map post s1 []) as [[s2 c2]| |] eqn:Hr2; cbn [obind fst snd];
      try reflexivity.
    assert (Hc2 : Forall (fun e : F.str * J.json => e.1 <> [35; ch]) c2)
      by exact (filter_visit_map_collect_Forall _ post s1 [] (s2, c2) Hpost (Forall_nil_2 _) Hr2).
    rewrite !tags_visit_map_app.
    destruct (J.tags_visit_map c1 ∅) as [m| |]; cbn [obind]; try reflexivity.
    cbn [J.tags_visit_map]. rewrite de_vec_string_array. cbn [obind].
    rewrite tags_visit_map_insert by exact Hc2.
    destruct (J.tags_visit_map c2 m); reflexivity.
  - intros pre post k v Hk Hv f.
    rewrite filter_visit_map_split by exact Hk.
    destruct (J.filter_visit_map pre J.seen_none []) as [[s1 c1]| |]; cbn [obind fst snd];
      try discriminate.
    destruct (J.filter_visit_map post s1 []) as [[s2 c2]| |]; cbn [obind fst snd];
      try discriminate.
    rewrite tags_visit_map_app.
    destruct (J.tags_visit_map c1 ∅) as [m| |]; cbn [obind]; try discriminate.
    cbn [J.tags_visit_map].
    destruct (J.de_vec J.de_string v) as [vs| |] eqn:Hde; cbn [obind]; try discriminate.
    exfalso. apply (Hv vs). now apply de_vec_string_inv.
Qed.

Lemma deserialize_filter_extra_keys_witness :
  J.deserialize_filter
    [(bytes_of_string "#ab", J.JArr (map J.JStr [[97]])); (bytes_of_string "since", J.JNum 5)] =
  J.deserialize_filter [(bytes_of_string "since", J.JNum 5)] /\
  J.deserialize_filter
    [(bytes_of_string "until", J.JNum 9); ([35; 116], J.JArr (map J.JStr [[97]]));
     (bytes_of_string "since", J.JNum 5)] =
  Ok (F.mkFilter [] [] [] (<[116 := [[97]]]> ∅) (Some 5) (Some 9) None) /\
  (forall f, J.deserialize_filter
    [(bytes_of_string "foo", J.JNum 1); (bytes_of_string "since", J.JNum 5)] <> Ok f).
Proof.
  split; [|split].
  - exact (proj1 deserialize_filter_extra_keys [] [(bytes_of_string "since", J.JNum 5)]
             (bytes_of_string "#ab") [[97]] eq_refl eq_refl).
  - assert (Hpost : Forall (fun e : F.str * J.json => e.1 <> [35; 116])
                      [(bytes_of_string "since", J.JNum 5)])
      by (constructor; [cbn; discriminate | constructor]).
    etransitivity.
    + exact (proj1 (proj2 deserialize_filter_extra_keys) [(bytes_of_string "until", J.JNum 9)]
               [(bytes_of_string "since", J.JNum 5)] 116 [[97]] Hpost).
    + vm_compute. reflexivity.
  - intros f. apply (proj2 (proj2 deserialize_filter_extra_keys) []
                       [(bytes_of_string "since", J.JNum 5)] (bytes_of_string "foo") (J.JNum 1)).
    + reflexivity.
    + intros vs. discriminate.
Defined.
(** * Further properties of the code *)

(** ** Event kinds: classification, iteration, JSON *)

Section EKS.
Import EK.

Lemma to_u32_from_u32 (u : Z) : EK.to_u32 (EK.from_u32 u) = u.
Proof.
  unfold EK.from_u32. destruct (find _ _) as [e|] eqn:Hfind.
  - apply find_some in Hfind as [_ Hcode]. now apply Z.eqb_eq.
  - repeat match goal with |- context [if ?b then _ else _] => destruct b end;
      reflexivity.
Qed.

Lemma from_u32_classify (P : EK.EventKind -> bool) (Q : Z -> bool) :
  forallb (fun e => Bool.eqb (P e) (Q (EK.to_u32 e))) EK.WELL_KNOWN_KINDS = true ->
  (forall u, find (fun e => EK.to_u32 e =? u) EK.WELL_KNOWN_KINDS = None ->
             P (EK.from_u32 u) = Q u) ->
  forall u, P (EK.from_u32 u) = Q u.
Proof.
  intros HW HN u.
  destruct (find (fun e => EK.to_u32 e =? u) EK.WELL_KNOWN_KINDS) as [e|] eqn:F; [|now apply HN].
  pose proof F as F'. apply find_some in F' as [Hin Hc]. apply Z.eqb_eq in Hc.
  unfold EK.from_u32. rewrite F. rewrite forallb_forall in HW.
  apply eqb_prop. subst u. now apply HW.
Qed.

Lemma find_none_not_code (u : Z) (codes : list Z) :
  find (fun e => EK.to_u32 e =? u) EK.WELL_KNOWN_KINDS = None ->
  forallb (fun c => existsb (fun e => EK.to_u32 e =? c) EK.WELL_KNOWN_KINDS) codes = true ->
  bool_decide (u ∈ codes) = false.
Proof.
  intros F H. apply bool_decide_eq_false_2. intros Hu.
  rewrite forallb_forall in H. apply list_elem_of_In in Hu.
  specialize (H u Hu). apply existsb_exists in H as [e [He Hc]].
  pose proof (find_none _ _ F e He) as Hc'. cbn in Hc'. congruence.
Qed.

Lemma from_u32_unknown (u : Z) :
  find (fun e => EK.to_u32 e =? u) EK.WELL_KNOWN_KINDS = None ->
  EK.from_u32 u =
    if (5000 <=? u) && (u <? 5999) then EK.JobRequest u
    else if (6000 <=? u) && (u <? 6999) then EK.JobResult u
    else if (10000 <=? u) && (u <? 20000) then EK.Replaceable u
    else if (20000 <=? u) && (u <? 30000) then EK.Ephemeral u
    else EK.Other u.
Proof. intros F. unfold EK.from_u32. now rewrite F. Qed.

Ltac zcases :=
  repeat match goal with
         | |- context [?a <=? ?b] => destruct (Z.leb_spec a b)
         | |- context [?a <? ?b] => destruct (Z.ltb_spec a b)
         end; cbn; try reflexivity; try lia.

(** For every code [u], [EventKind::from(u).is_replaceable()] holds exactly
    when [u] is 0 or 3 (Metadata, ContactList) or lies in [10000..=19999] or
    [30000..=39999]. *)
Theorem replaceable_by_number (u : Z) :
  EK.is_replaceable (EK.from_u32 u) = true <->
  u ∈ [0; 3] \/ 10000 <= u <= 19999 \/ 30000 <= u <= 39999.
Proof.
  rewrite (from_u32_classify EK.is_replaceable
    (fun u => bool_decide (u ∈ [0; 3]) || ((10000 <=? u) && (u <=? 19999)) ||
              ((30000 <=? u) && (u <=? 39999)))).
  - rewrite !orb_true_iff, !andb_true_iff, !Z.leb_le, bool_decide_eq_true. tauto.
  - vm_compute. reflexivity.
  - intros v F. rewrite (find_none_not_code v [0; 3] F) by (vm_compute; reflexivity).
    rewrite (from_u32_unknown v F). zcases.
Qed.

(** For every code [u], [EventKind::from(u).contents_are_encrypted()] holds
    exactly for the codes of the thirteen named encrypted kinds and for
    [5000..=5998] and [6000..=6998] (the [JobRequest]/[JobResult] ranges as
    [From<u32>] cuts them). *)
Theorem encrypted_by_number (u : Z) :
  EK.contents_are_encrypted (EK.from_u32 u) = true <->
  u ∈ [4; 10000; 10001; 10003; 10004; 10005; 10006; 10007; 10015; 10030;
       23194; 23195; 24133] \/
  5000 <= u <= 5998 \/ 6000 <= u <= 6998.
Proof.
  rewrite (from_u32_classify EK.contents_are_encrypted
    (fun u => bool_decide (u ∈ [4; 10000; 10001; 10003; 10004; 10005; 10006; 10007; 10015;
                                10030; 23194; 23195; 24133]) ||
              ((5000 <=? u) && (u <=? 5998)) || ((6000 <=? u) && (u <=? 6998)))).
  - rewrite !orb_true_iff, !andb_true_iff, !Z.leb_le, bool_decide_eq_true. tauto.
  - vm_compute. reflexivity.
  - intros v F. rewrite (find_none_not_code v _ F) by (vm_compute; reflexivity).
    rewrite (from_u32_unknown v F). zcases.
Qed.

(** For every code [u], [EventKind::from(u).is_feed_related()] holds exactly
    for seventeen codes (the eleven feed-displayable kinds and the six that
    augment them), and [is_direct_message_related()] exactly for 4, 14 and
    1059: no catch-all variant is feed or direct-message related. *)
Theorem feed_dm_by_number (u : Z) :
  (EK.is_feed_related (EK.from_u32 u) = true <->
   u ∈ [1; 4; 5; 6; 7; 14; 16; 42; 1040; 1063; 1311; 1984; 1985; 4549; 9735;
        30023; 30024]) /\
  (EK.is_direct_message_related (EK.from_u32 u) = true <-> u ∈ [4; 14; 1059]).
Proof.
  split.
  - rewrite (from_u32_classify EK.is_feed_related
      (fun u => bool_decide (u ∈ [1; 4; 5; 6; 7; 14; 16; 42; 1040; 1063; 1311; 1984; 1985;
                                  4549; 9735; 30023; 30024]))).
    + apply bool_decide_eq_true.
    + vm_compute. reflexivity.
    + intros v F. rewrite (find_none_not_code v _ F) by (vm_compute; reflexivity).
      rewrite (from_u32_unknown v F). zcases.
  - rewrite (from_u32_classify EK.is_direct_message_related
      (fun u => bool_decide (u ∈ [4; 14; 1059]))).
    + apply bool_decide_eq_true.
    + vm_compute. reflexivity.
    + intros v F. rewrite (find_none_not_code v _ F) by (vm_compute; reflexivity).
      rewrite (from_u32_unknown v F). zcases.
Qed.

(** Every parameterized-replaceable kind is replaceable, and no replaceable
    kind is ephemeral. *)
Theorem kind_classes (e : EK.EventKind) :
  (EK.is_parameterized_replaceable e = true -> EK.is_replaceable e = true) /\
  (EK.is_replaceable e = true -> EK.is_ephemeral e = false).
Proof.
  unfold EK.is_parameterized_replaceable, EK.is_ephemeral.
  destruct e; cbn; split; intros H; try reflexivity; try discriminate;
    revert H; zcases.
Qed.

Lemma next_n_from (n p : nat) :
  (p + n <= length EK.WELL_KNOWN_KINDS)%nat ->
  EK.next_n n (EK.mkIter p) = Ok (take n (drop p EK.WELL_KNOWN_KINDS), EK.mkIter (p + n)).
Proof.
  revert p. induction n as [|n IH]; intros p Hp.
  - cbn. now rewrite Nat.add_0_r.
  - cbn [EK.next_n]. unfold EK.next. cbn [EK.pos].
    rewrite (proj2 (Nat.eqb_neq _ _)) by lia.
    destruct (nth_error EK.WELL_KNOWN_KINDS p) as [k|] eqn:Hk.
    2:{ apply nth_error_None in Hk. lia. }
    cbn [obind]. rewrite IH by lia. cbn [obind fst snd].
    rewrite <- Nat.add_succ_comm.
    assert (Hd : drop p EK.WELL_KNOWN_KINDS = k :: drop (S p) EK.WELL_KNOWN_KINDS).
    { apply nth_error_split in Hk as [l1 [l2 [Hl Hlen]]].
      rewrite Hl. subst p. rewrite drop_app_length. cbn.
      replace (S (length l1)) with (length l1 + 1)%nat by lia.
      rewrite <- drop_drop, drop_app_length. reflexivity. }
    now rewrite Hd.
Qed.

(** For [n] at most the number of well-known kinds, [n] calls of [next] on
    [EventKind::iter()] yield the first [n] well-known kinds; the remaining
    calls yield the rest in order, after which [next] returns [None] and
    leaves the iterator unchanged.  [size_hint] is [(n, Some(len))]: its lower
    bound is the number of items already yielded, which is at most the number
    left only while [2 n <= len]. *)
Theorem iter_after_n (n : nat) :
  (n <= length EK.WELL_KNOWN_KINDS)%nat ->
  EK.next_n n EK.iter = Ok (take n EK.WELL_KNOWN_KINDS, EK.mkIter n) /\
  EK.next_n (length EK.WELL_KNOWN_KINDS - n) (EK.mkIter n) =
    Ok (drop n EK.WELL_KNOWN_KINDS, EK.mkIter (length EK.WELL_KNOWN_KINDS)) /\
  EK.next (EK.mkIter (length EK.WELL_KNOWN_KINDS)) =
    Ok (None, EK.mkIter (length EK.WELL_KNOWN_KINDS)) /\
  EK.size_hint (EK.mkIter n) = (n, Some (length EK.WELL_KNOWN_KINDS)) /\
  ((EK.size_hint (EK.mkIter n)).1 <= length (drop n EK.WELL_KNOWN_KINDS) <->
   2 * n <= length EK.WELL_KNOWN_KINDS)%nat.
Proof.
  intros Hn. split; [|split; [|split; [|split]]].
  - unfold EK.iter. rewrite next_n_from by lia. reflexivity.
  - rewrite next_n_from by lia.
    rewrite take_ge.
    2:{ rewrite length_drop. lia. }
    do 2 f_equal. f_equal. lia.
  - unfold EK.next. cbn [EK.pos]. now rewrite Nat.eqb_refl.
  - reflexivity.
  - cbn [EK.size_hint fst EK.pos]. rewrite length_drop. lia.
Qed.

Lemma from_u32_to_u32_named (e : EK.EventKind) :
  EK.is_catch_all e = false -> EK.from_u32 (EK.to_u32 e) = e.
Proof. destruct e; cbn; try discriminate; reflexivity. Qed.

Lemma well_known_named (e : EK.EventKind) :
  e ∈ EK.WELL_KNOWN_KINDS <-> EK.is_catch_all e = false.
Proof.
  split.
  - intros He. apply list_elem_of_In in He.
    assert (H : forallb (fun k => negb (EK.is_catch_all k)) EK.WELL_KNOWN_KINDS = true)
      by (vm_compute; reflexivity).
    rewrite forallb_forall in H. apply negb_true_iff. now apply H.
  - destruct e; intros H; cbn in H; try discriminate;
      apply (bool_decide_eq_true_1 (_ ∈ EK.WELL_KNOWN_KINDS)); vm_compute; reflexivity.
Qed.

(** [EventKind::iter()] yields the whole [WELL_KNOWN_KINDS] list, without
    duplicates, and that list holds exactly the kinds that are not a
    catch-all variant ([JobRequest], [JobResult], [Replaceable], [Ephemeral],
    [Other]). *)
Theorem iter_yields_named_once :
  EK.next_n (length EK.WELL_KNOWN_KINDS) EK.iter =
    Ok (EK.WELL_KNOWN_KINDS, EK.mkIter (length EK.WELL_KNOWN_KINDS)) /\
  NoDup EK.WELL_KNOWN_KINDS /\
  (forall e, e ∈ EK.WELL_KNOWN_KINDS <-> EK.is_catch_all e = false).
Proof.
  split; [|split].
  - unfold EK.iter. rewrite next_n_from by lia. rewrite drop_0, take_ge by lia. reflexivity.
  - apply (bool_decide_eq_true_1 (NoDup EK.WELL_KNOWN_KINDS)). vm_compute. reflexivity.
  - exact well_known_named.
Qed.

(** Serialising an event kind to JSON (its [u32] code) and deserialising it
    gives the same kind back, for every named kind and every value of
    [EventKind::from] on a [u32]. *)
Theorem event_kind_json_roundtrip (e : EK.EventKind) :
  (EK.is_catch_all e = false \/ exists u, 0 <= u < 2 ^ 32 /\ e = EK.from_u32 u) ->
  J.de_event_kind (J.serialize_event_kind e) = Ok e.
Proof.
  intros He. unfold J.de_event_kind, J.serialize_event_kind.
  assert (Hr : 0 <= EK.to_u32 e < 2 ^ 32 /\ EK.from_u32 (EK.to_u32 e) = e).
  { destruct He as [He|[u [Hu ->]]].
    - split; [|now apply from_u32_to_u32_named].
      destruct e; cbn in He |- *; try discriminate; lia.
    - rewrite to_u32_from_u32. auto. }
  destruct Hr as [Hr He'].
  rewrite (proj2 (andb_true_iff _ _)) by (split; [apply Z.leb_le|apply Z.ltb_lt]; lia).
  rewrite Z.mod_small by lia. now rewrite He'.
Qed.
End EKS.

(** ** NAddr: the TLV loop, round trip, equality *)

Section TlvTail.
Import NA.

Lemma scan_loop_prefix ck (fs pre : list (Z * list Z)) tail fuel st :
  Forall field_ok fs -> (length fs < fuel)%nat ->
  (2 <= length (encode_fields (pre ++ fs) ++ tail))%nat ->
  scan_loop ck fuel (encode_fields (pre ++ fs) ++ tail) (Z.of_nat (length (encode_fields pre))) st =
  (let? st' := fold_steps fs st in
   scan_loop ck (fuel - length fs) (encode_fields (pre ++ fs) ++ tail)
     (Z.of_nat (length (encode_fields (pre ++ fs)))) st').
Proof.
  revert pre fuel st. induction fs as [|f fs IH]; intros pre fuel st Hok Hfuel Hlen.
  - cbn [fold_steps obind length]. rewrite app_nil_r, Nat.sub_0_r. reflexivity.
  - inversion Hok as [|? ? [Hty Hraw] Hok']; subst.
    destruct fuel as [|fuel]; [cbn in Hfuel; lia|].
    set (A := encode_fields pre).
    set (B := encode_fields (pre ++ f :: fs) ++ tail).
    assert (Htlv : B = A ++ f.1 :: Z.of_nat (length f.2) :: f.2 ++ encode_fields fs ++ tail)
      by (subst B; rewrite encode_fields_app, encode_fields_cons, <- app_assoc; cbn [app];
          now rewrite <- app_assoc).
    assert (Hlen' : length B =
                    (length A + 2 + length f.2 + length (encode_fields fs) + length tail)%nat)
      by (rewrite Htlv, length_app; cbn [length]; rewrite !length_app; lia).
    cbn [scan_loop]. rewrite Hlen'.
    unfold usize_sub. rewrite (proj2 (Z.ltb_ge _ _)) by lia. cbn [obind].
    rewrite Z.gtb_ltb, (proj2 (Z.ltb_ge _ _)) by lia.
    unfold index. rewrite Htlv, !Nat2Z.id.
    rewrite nth_error_app2 by lia. rewrite Nat.sub_diag. cbn [nth_error obind].
    rewrite Z2Nat.inj_add by lia. rewrite Nat2Z.id.
    rewrite nth_error_app2 by lia.
    replace (length A + Z.to_nat 1 - length A)%nat with 1%nat by (cbn; lia).
    cbn [nth_error obind].
    rewrite Z.gtb_ltb, (proj2 (Z.ltb_ge _ _)) by lia.
    assert (Hslice : slice (A ++ f.1 :: Z.of_nat (length f.2) :: f.2 ++ encode_fields fs ++ tail)
                       (Z.of_nat (length A) + 2)
                       (Z.of_nat (length A) + 2 + Z.of_nat (length f.2)) = f.2).
    { unfold slice.
      replace (Z.to_nat (Z.of_nat (length A) + 2 + Z.of_nat (length f.2) -
                         (Z.of_nat (length A) + 2))) with (length f.2) by lia.
      replace (Z.to_nat (Z.of_nat (length A) + 2)) with (length A + 2)%nat by lia.
      rewrite skipn_app, skipn_all2 by lia. rewrite Nat.add_comm, Nat.add_sub.
      cbn. now rewrite drop_0, take_app_length. }
    rewrite Hslice. cbn [fold_steps].
    destruct (tlv_step f.1 f.2 st) as [st'| |] eqn:Hstep; cbn [obind]; try reflexivity.
    specialize (IH (pre ++ [f]) fuel st' Hok' ltac:(cbn in Hfuel; lia)).
    rewrite <- app_assoc in IH. cbn [app] in IH.
    replace (S fuel - length (f :: fs))%nat with (fuel - length fs)%nat by (cbn; lia).
    rewrite <- Htlv. subst B. rewrite <- IH.
    + f_equal. rewrite encode_fields_app, length_app. cbn [encode_fields concat map tlv_field length].
      rewrite app_nil_r. unfold tlv_field. cbn [length]. subst A. lia.
    + rewrite <- ?app_assoc in *. cbn [app] in *. exact Hlen.
Qed.


Lemma fold_steps_app (fs gs : list (Z * list Z)) st :
  fold_steps (fs ++ gs) st = (let? st' := fold_steps fs st in fold_steps gs st').
Proof.
  revert st. induction fs as [|f fs IH]; intros st; [reflexivity|].
  cbn [app fold_steps]. destruct (tlv_step f.1 f.2 st); cbn [obind]; auto.
Qed.

Lemma pubkey_from_bytes_ok (raw : list Z) (pk : PublicKey) :
  pubkey_from_bytes raw true = Ok pk -> pk = mkPublicKey raw.
Proof. unfold pubkey_from_bytes. repeat case_match; congruence. Qed.

Lemma tlv_step_other ty raw st :
  ty <> 0 -> ty <> 1 -> ty <> 2 -> ty <> 3 -> tlv_step ty raw st = Ok st.
Proof.
  intros H0 H1 H2 H3. unfold tlv_step.
  destruct ty as [|[[p|p|]|[p|p|]|]|p]; try reflexivity; congruence.
Qed.

Lemma values_of_cons k ty raw (fs : list (Z * list Z)) :
  values_of k ((ty, raw) :: fs) = if ty =? k then raw :: values_of k fs else values_of k fs.
Proof. unfold values_of. cbn. now destruct (ty =? k). Qed.

Lemma last_or_cons {A} (x : A) l dflt : last_or (x :: l) dflt = last_or l (Some x).
Proof.
  unfold last_or. destruct l as [|y l]; [reflexivity|].
  rewrite last_cons_cons. destruct (last (y :: l)) eqn:E; [reflexivity|].
  apply last_None in E. discriminate.
Qed.

Lemma last_or_None {A} (l : list A) : last_or l None = last l.
Proof. unfold last_or. now destruct (last l). Qed.

(** The loop body over fields it accepts: the last d tag, kind and valid
    author win; the relays accumulate in order. *)
Lemma fold_steps_good (fs : list (Z * list Z)) st :
  Forall (fun f => field_good f = true) fs ->
  fold_steps fs st =
  Ok (mkScan (last_or (values_of 0 fs) (maybe_d st))
             (s_relays st ++ values_of 1 fs)
             (last_or (map (fun r => EK.from_u32 (be_to_Z r)) (values_of 3 fs)) (maybe_kind st))
             (last_or (map mkPublicKey (List.filter valid_author (values_of 2 fs)))
                (maybe_author st))).
Proof.
  revert st. induction fs as [|[ty raw] fs IH]; intros st Hg.
  - cbn. rewrite app_nil_r. now destruct st.
  - inversion Hg as [|? ? Hf Hg']; subst. unfold field_good in Hf. cbn [fst snd] in Hf.
    cbn [fold_steps fst snd]. rewrite !values_of_cons.
    destruct (Z.eq_dec ty 0) as [->|H0]; [|destruct (Z.eq_dec ty 1) as [->|H1];
      [|destruct (Z.eq_dec ty 2) as [->|H2]; [|destruct (Z.eq_dec ty 3) as [->|H3]]]].
    + cbn [tlv_step Z.eqb Pos.eqb]. rewrite from_utf8_ok by exact Hf. cbn [obind].
      rewrite IH by exact Hg'. cbn [maybe_d s_relays maybe_kind maybe_author].
      now rewrite last_or_cons.
    + cbn [tlv_step Z.eqb Pos.eqb]. rewrite from_utf8_ok by exact Hf. cbn [obind].
      rewrite IH by exact Hg'. cbn [maybe_d s_relays maybe_kind maybe_author].
      now rewrite <- app_assoc.
    + cbn [tlv_step Z.eqb Pos.eqb].
      destruct (pubkey_from_bytes raw true) as [pk| |] eqn:E.
      * apply pubkey_from_bytes_ok in E as Epk. subst pk.
        assert (Hv : valid_author raw = true) by (unfold valid_author; now rewrite E).
        cbn [List.filter]. rewrite Hv. cbn [obind map].
        rewrite IH by exact Hg'. cbn [maybe_d s_relays maybe_kind maybe_author].
        now rewrite last_or_cons.
      * assert (Hv : valid_author raw = false) by (unfold valid_author; now rewrite E).
        cbn [List.filter]. rewrite Hv. cbn [obind]. now rewrite IH by exact Hg'.
      * assert (Hv : valid_author raw = false) by (unfold valid_author; now rewrite E).
        cbn [List.filter]. rewrite Hv. cbn [obind]. now rewrite IH by exact Hg'.
    + cbn [tlv_step Z.eqb Pos.eqb]. rewrite Hf. cbn [obind map].
      rewrite IH by exact Hg'. cbn [maybe_d s_relays maybe_kind maybe_author].
      now rewrite last_or_cons.
    + rewrite tlv_step_other by assumption. cbn [obind].
      rewrite !(proj2 (Z.eqb_neq _ _)) by assumption. now apply IH.
Qed.

End TlvTail.

Lemma naddr_from_fields_good (ck : bool) (fs : list (Z * list Z)) :
  Forall NA.field_ok fs -> fs <> [] -> Forall (fun f => NA.field_good f = true) fs ->
  NA.naddr_from_tlv ck (NA.encode_fields fs) =
  NA.finish (NA.mkScan (last (NA.values_of 0 fs)) (NA.values_of 1 fs)
               (last (map (fun r => EK.from_u32 (NA.be_to_Z r)) (NA.values_of 3 fs)))
               (last (map NA.mkPublicKey (List.filter NA.valid_author (NA.values_of 2 fs))))).
Proof.
  intros Hok Hne Hg. rewrite naddr_from_fields by assumption.
  rewrite fold_steps_good by assumption. cbn [obind].
  unfold NA.scan_init. cbn [NA.maybe_d NA.s_relays NA.maybe_kind NA.maybe_author app].
  now rewrite !last_or_None.
Qed.

(** In a buffer of well-formed fields, decoding stops at the first field the
    loop rejects: a kind field whose value is not 4 bytes gives
    [WrongLengthKindBytes], a d tag or relay that is not UTF-8 gives
    [Utf8Error], whatever follows. *)
Theorem naddr_decode_bad_field (ck : bool) (pre : list (Z * list Z)) f post :
  Forall NA.field_ok (pre ++ f :: post) -> Forall (fun g => NA.field_good g = true) pre ->
  NA.field_good f = false ->
  NA.naddr_from_tlv ck (NA.encode_fields (pre ++ f :: post)) =
  Err (if f.1 =? 3 then NA.WrongLengthKindBytes else NA.Utf8Error).
Proof.
  intros Hok Hg Hbad. rewrite naddr_from_fields by (auto using app_cons_not_nil).
  rewrite fold_steps_app, fold_steps_good by assumption. cbn [obind NA.fold_steps].
  destruct f as [ty raw]. unfold NA.field_good in Hbad. cbn [fst snd] in Hbad |- *.
  destruct ty as [|[[p|p|]|[p|p|]|]|p]; try discriminate; cbn [Z.eqb];
    unfold NA.tlv_step, NA.from_utf8; rewrite ?Hbad; reflexivity.
Qed.

(** For a non-empty TLV buffer of well-formed fields, each of which the loop
    accepts (a UTF-8 d tag or relay, a 4-byte kind), decoding keeps the last
    d tag, all relays in order, the last kind and the last author that is a
    valid public key, then applies the final checks. *)
Theorem naddr_decode_fields (ck : bool) (fs : list (Z * list Z)) :
  Forall NA.field_ok fs -> fs <> [] -> Forall (fun f => NA.field_good f = true) fs ->
  NA.naddr_from_tlv ck (NA.encode_fields fs) =
  NA.finish (NA.mkScan (last (NA.values_of 0 fs)) (NA.values_of 1 fs)
               (last (map (fun r => EK.from_u32 (NA.be_to_Z r)) (NA.values_of 3 fs)))
               (last (map NA.mkPublicKey (List.filter NA.valid_author (NA.values_of 2 fs))))).
Proof. exact (naddr_from_fields_good ck fs). Qed.

Lemma naddr_from_tlv_tail ck (fs : list (Z * list Z)) tail :
  Forall NA.field_ok fs -> (2 <= length (NA.encode_fields fs ++ tail))%nat ->
  NA.naddr_from_tlv ck (NA.encode_fields fs ++ tail) =
  (let? st := NA.fold_steps fs NA.scan_init in
   let? st' := NA.scan_loop ck (S (length (NA.encode_fields fs ++ tail)) - length fs)
                 (NA.encode_fields fs ++ tail) (Z.of_nat (length (NA.encode_fields fs))) st in
   NA.finish st').
Proof.
  intros Hok Hlen. unfold NA.naddr_from_tlv.
  pose proof (length_encode_fields_ge fs) as Hge.
  pose proof (scan_loop_prefix ck fs [] tail (S (length (NA.encode_fields fs ++ tail)))
                NA.scan_init Hok) as H.
  rewrite app_nil_l in H. change (NA.encode_fields []) with (@nil Z) in H.
  cbn [length] in H. change 0 with (Z.of_nat 0). rewrite H by (rewrite ?length_app in *; lia).
  clear H.
  destruct (NA.fold_steps fs NA.scan_init); reflexivity.
Qed.

(** One extra byte after a non-empty buffer of well-formed TLV fields is
    ignored: the decoding is the same as without it. *)
Theorem naddr_decode_trailing_byte (ck : bool) (fs : list (Z * list Z)) (b : Z) :
  Forall NA.field_ok fs -> fs <> [] ->
  NA.naddr_from_tlv ck (NA.encode_fields fs ++ [b]) = NA.naddr_from_tlv ck (NA.encode_fields fs).
Proof.
  intros Hok Hne. pose proof (length_encode_fields_ge fs) as Hge.
  assert (Hl : (2 <= length (NA.encode_fields fs))%nat)
    by (destruct fs; [contradiction|]; cbn [length] in Hge; lia).
  rewrite naddr_from_tlv_tail by first [assumption | rewrite length_app; cbn; lia].
  rewrite naddr_from_fields by (auto; discriminate).
  destruct (NA.fold_steps fs NA.scan_init) as [st| |]; cbn [obind]; try reflexivity.
  rewrite length_app. cbn [length].
  replace (S (length (NA.encode_fields fs) + 1) - length fs)%nat
    with (S (length (NA.encode_fields fs) + 1 - length fs)) by lia.
  cbn [NA.scan_loop]. rewrite length_app. cbn [length]. unfold NA.usize_sub.
  rewrite (proj2 (Z.ltb_ge _ _)) by lia. cbn [obind].
  rewrite Z.gtb_ltb, (proj2 (Z.ltb_lt _ _)) by lia. reflexivity.
Qed.

(** When the last field of a buffer announces more bytes than remain, the
    decoder returns [InvalidProfile] (after well-formed fields it accepts). *)
Theorem naddr_decode_truncated_field (ck : bool) (fs : list (Z * list Z)) (ty len : Z)
  (raw : list Z) :
  Forall NA.field_ok fs -> Forall (fun f => NA.field_good f = true) fs ->
  Z.of_nat (length raw) < len ->
  NA.naddr_from_tlv ck (NA.encode_fields fs ++ ty :: len :: raw) = Err NA.InvalidProfile.
Proof.
  intros Hok Hg Hlen. pose proof (length_encode_fields_ge fs) as Hge.
  rewrite naddr_from_tlv_tail by first [assumption | rewrite length_app; cbn; lia].
  rewrite fold_steps_good by assumption. cbn [obind].
  set (E := NA.encode_fields fs) in *.
  rewrite length_app. cbn [length].
  replace (S (length E + S (S (length raw))) - length fs)%nat
    with (S (length E + S (S (length raw)) - length fs)) by lia.
  cbn [NA.scan_loop]. rewrite length_app. cbn [length]. unfold NA.usize_sub.
  rewrite (proj2 (Z.ltb_ge _ _)) by lia. cbn [obind].
  rewrite Z.gtb_ltb, (proj2 (Z.ltb_ge _ _)) by lia.
  unfold NA.index. rewrite Nat2Z.id, nth_error_app2, Nat.sub_diag by lia. cbn [nth_error obind].
  rewrite Z2Nat.inj_add, Nat2Z.id, nth_error_app2 by lia.
  replace (length E + Z.to_nat 1 - length E)%nat with 1%nat by (cbn; lia).
  cbn [nth_error obind].
  rewrite Z.gtb_ltb, (proj2 (Z.ltb_lt _ _)) by lia. reflexivity.
Qed.

Section RT.
Import NA.

Lemma be_to_Z_to_be_bytes (u : Z) : 0 <= u < 2 ^ 32 -> be_to_Z (to_be_bytes u) = u.
Proof.
  intros Hu. unfold be_to_Z, to_be_bytes. change 255 with (Z.ones 8).
  rewrite !Z.land_ones, !Z.shiftr_div_pow2 by lia. cbn [fold_left].
  replace (2 ^ 16) with (256 * 256) by reflexivity.
  replace (2 ^ 24) with (256 * 256 * 256) by reflexivity. change (2 ^ 8) with 256.
  rewrite <- !Z.div_div by lia.
  assert (Hz : u / 256 / 256 / 256 < 256).
  { rewrite !Z.div_div by lia. apply Z.div_lt_upper_bound; [lia|]. cbn in Hu |- *. lia. }
  assert (Hz0 : 0 <= u / 256 / 256 / 256) by (apply Z.div_pos; [apply Z.div_pos; [apply Z.div_pos|]|]; lia).
  rewrite (Z.mod_small (u / 256 / 256 / 256)) by lia.
  pose proof (Z.div_mod u 256 ltac:(lia)).
  pose proof (Z.div_mod (u / 256) 256 ltac:(lia)).
  pose proof (Z.div_mod (u / 256 / 256) 256 ltac:(lia)).
  lia.
Qed.

Lemma values_of_app k (fs gs : list (Z * list Z)) :
  values_of k (fs ++ gs) = values_of k fs ++ values_of k gs.
Proof. unfold values_of. now rewrite List.filter_app, map_app. Qed.

Lemma values_of_relays k (rs : list (list Z)) :
  values_of k (map (fun r => (1, r)) rs) = if k =? 1 then rs else [].
Proof.
  induction rs as [|r rs IH]; [now destruct (k =? 1)|].
  cbn [map]. rewrite values_of_cons, IH. rewrite (Z.eqb_sym 1 k).
  now destruct (k =? 1).
Qed.

End RT.

(** For every NAddr whose d tag and relays are UTF-8 strings of at most 255
    bytes, whose author is a valid public key and whose kind is the
    [EventKind::from] of its own code, and whose bech32 string stays within
    the 1023-character limit, decoding [as_bech32_string] gives the NAddr back
    when its kind is replaceable and [NonReplaceableAddr] otherwise. *)
Theorem naddr_roundtrip_all (ck : bool) (n : NA.NAddr) :
  NA.utf8_valid (NA.d n) = true -> (length (NA.d n) <= 255)%nat ->
  Forall (fun r => NA.utf8_valid r = true /\ (length r <= 255)%nat) (NA.relays n) ->
  NA.pubkey_valid (NA.author n) = true ->
  0 <= EK.to_u32 (NA.kind n) < 2 ^ 32 ->
  EK.from_u32 (EK.to_u32 (NA.kind n)) = NA.kind n ->
  (length (NA.as_bech32_string n) <= 1023)%nat ->
  NA.try_from_bech32_string ck (NA.as_bech32_string n) =
  if EK.is_replaceable (NA.kind n) then Ok n else Err NA.NonReplaceableAddr.
Proof.
  destruct n as [dd rs k P]. cbn [NA.d NA.relays NA.kind NA.author].
  intros Hd Hdl Hrs HP Hk Hkc _.
  assert (HPl : length (NA.pk_bytes P) = 32%nat).
  { unfold NA.pubkey_valid in HP. apply andb_prop in HP as [HP _].
    apply andb_prop in HP as [HP _]. now apply Nat.eqb_eq. }
  assert (HPb := bytes_ok_Forall _ (proj2 (andb_prop _ _ (proj1 (andb_prop _ _ HP))))).
  unfold NA.try_from_bech32_string, NA.as_bech32_string.
  rewrite naddr_tlv_fields; [| exact Hdl | | exact HPl].
  2:{ eapply Forall_impl; [exact Hrs|]. cbn. tauto. }
  set (fs := [(0, dd)] ++ map (fun r => (1, r)) rs ++
             [(3, NA.to_be_bytes (EK.to_u32 k)); (2, NA.pk_bytes P)]).
  assert (Hok : Forall NA.field_ok fs).
  { unfold fs, NA.field_ok. apply Forall_app; split; [constructor; [cbn; lia | constructor]|].
    apply Forall_app; split.
    - apply Forall_map. eapply Forall_impl; [exact Hrs|]. cbn. lia.
    - constructor; [cbn; lia|]. constructor; [cbn [fst snd]; lia|]. constructor. }
  rewrite decode_encode; [| reflexivity | reflexivity |].
  2:{ apply encode_fields_bytes. unfold fs.
      apply Forall_app; split; [constructor; [cbn [fst snd]; split;
        [lia | split; [lia | now apply utf8_valid_bytes]] | constructor]|].
      apply Forall_app; split.
      - apply Forall_map. eapply Forall_impl; [exact Hrs|]. cbn [fst snd].
        intros r [Hr Hrl]. split; [lia | split; [lia | now apply utf8_valid_bytes]].
      - constructor; [cbn [fst snd]; split; [lia | split; [cbn; lia | apply to_be_bytes_bound]]|].
        constructor; [cbn [fst snd]; split; [lia | split; [lia | exact HPb]]|].
        constructor. }
  rewrite bool_decide_true by reflexivity. cbn [negb].
  rewrite naddr_from_fields_good; [| exact Hok | unfold fs; cbn; discriminate |].
  2:{ unfold fs. apply Forall_app; split; [constructor; [exact Hd | constructor]|].
      apply Forall_app; split.
      - apply Forall_map. eapply Forall_impl; [exact Hrs|]. cbn. tauto.
      - constructor; [reflexivity|]. constructor; [reflexivity|]. constructor. }
  assert (Hva : NA.valid_author (NA.pk_bytes P) = true)
    by (unfold NA.valid_author; now rewrite pubkey_from_bytes_valid).
  unfold fs. rewrite !values_of_app, !values_of_relays. unfold NA.values_of.
  cbn [List.filter map fst snd Z.eqb Pos.eqb app last].
  rewrite Hva. cbn [map last].
  rewrite (be_to_Z_to_be_bytes _ Hk), Hkc, app_nil_r. unfold NA.finish.
  cbn [NA.maybe_d NA.maybe_kind NA.maybe_author NA.s_relays].
  destruct P as [pb]. destruct (EK.is_replaceable k); reflexivity.
Qed.

(** ** Filter: list and tag operations *)

Section FilterSets.
Import F.
Context {A : Type} `{EqDecision A}.

Lemma contains_spec (x : A) (l : list A) : contains x l = true <-> x ∈ l.
Proof.
  unfold contains. rewrite existsb_exists, list_elem_of_In. split.
  - intros [y [Hy Hb]]. apply bool_decide_eq_true in Hb. now subst.
  - intros Hx. exists x. split; [exact Hx|]. now apply bool_decide_eq_true.
Qed.

Lemma position_some (x : A) (l : list A) i :
  position (fun z => bool_decide (z = x)) l = Some i -> l !! i = Some x.
Proof.
  revert i. induction l as [|y l IH]; intros i H; cbn in H; [discriminate|].
  destruct (bool_decide (y = x)) eqn:E.
  - injection H as <-. apply bool_decide_eq_true in E. now subst.
  - destruct (position _ l) as [j|] eqn:P; cbn in H; [|discriminate].
    injection H as <-. cbn. now apply IH.
Qed.

Lemma position_none (x : A) (l : list A) :
  position (fun z => bool_decide (z = x)) l = None -> x ∉ l.
Proof.
  induction l as [|y l IH]; cbn; intros H; [apply not_elem_of_nil|].
  destruct (bool_decide (y = x)) eqn:E; [discriminate|].
  apply bool_decide_eq_false in E.
  destruct (position _ l); cbn in H; [discriminate|].
  rewrite elem_of_cons. intros [->|Hx]; [congruence | now apply IH].
Qed.

Lemma swap_remove_perm (l : list A) (i : nat) :
  (i < length l)%nat -> swap_remove l i ≡ₚ delete i l.
Proof.
  intros Hi. destruct l as [|y l0] using rev_ind; [cbn in Hi; lia|].
  unfold swap_remove. rewrite rev_app_distr. cbn [rev app].
  rewrite length_rev, rev_involutive. rewrite length_app in Hi. cbn [length] in Hi.
  destruct (Nat.eqb_spec i (length l0)) as [->|Hne].
  - rewrite delete_take_drop, take_app_length, drop_ge by (rewrite length_app; cbn; lia).
    now rewrite app_nil_r.
  - rewrite insert_take_drop by lia. rewrite delete_take_drop.
    rewrite take_app_le, drop_app_le by lia.
    apply Permutation_app_head. apply Permutation_cons_append.
Qed.


Lemma add_elem_spec (x y : A) (l : list A) :
  NoDup l ->
  NoDup (if contains x l then l else l ++ [x]) /\
  (y ∈ (if contains x l then l else l ++ [x]) <-> y ∈ l \/ y = x).
Proof.
  intros Hl. destruct (contains x l) eqn:C.
  - apply contains_spec in C. split; [exact Hl|]. split; [auto|].
    intros [H| ->]; auto.
  - assert (Hx : x ∉ l) by (intros H; apply contains_spec in H; congruence).
    split.
    + apply NoDup_app. split; [exact Hl|]. split; [|apply NoDup_singleton].
      intros z Hz Hz'. apply list_elem_of_singleton in Hz'. subst. contradiction.
    + rewrite elem_of_app, list_elem_of_singleton. tauto.
Qed.

Lemma del_elem_spec (x y : A) (l : list A) :
  NoDup l ->
  let l' := match position (fun z => bool_decide (z = x)) l with
            | Some i => swap_remove l i
            | None => l
            end in
  NoDup l' /\ (y ∈ l' <-> y ∈ l /\ y <> x).
Proof.
  intros Hl l'. unfold l'.
  destruct (position _ l) as [i|] eqn:P.
  - apply position_some in P.
    assert (Hi : (i < length l)%nat) by (apply lookup_lt_Some in P; exact P).
    pose proof (delete_Permutation l i x P) as Hperm.
    pose proof Hl as Hl'. rewrite Hperm in Hl'. apply NoDup_cons in Hl' as [Hxd Hd].
    rewrite (swap_remove_perm l i Hi). split; [exact Hd|].
    assert (Hmem : y ∈ l <-> y ∈ x :: delete i l) by (now rewrite Hperm at 1).
    rewrite Hmem, elem_of_cons. split.
    + intros Hy. split; [now right|]. intros ->. contradiction.
    + intros [[->|Hy] Hne]; [contradiction|exact Hy].
  - apply position_none in P. split; [exact Hl|]. split; [|tauto].
    intros Hy. split; [exact Hy|]. intros ->. contradiction.
Qed.

Lemma del_add_elem (x : A) (l : list A) :
  x ∉ l ->
  match position (fun z => bool_decide (z = x)) (l ++ [x]) with
  | Some i => swap_remove (l ++ [x]) i
  | None => l ++ [x]
  end = l.
Proof.
  intros Hx.
  assert (P : position (fun z => bool_decide (z = x)) (l ++ [x]) = Some (length l)).
  { induction l as [|y l IH]; cbn.
    - now rewrite bool_decide_true.
    - rewrite elem_of_cons in Hx. rewrite bool_decide_false by (intros ->; tauto).
      rewrite IH by tauto. reflexivity. }
  rewrite P. unfold swap_remove. rewrite rev_app_distr. cbn [rev app].
  now rewrite length_rev, Nat.eqb_refl, rev_involutive.
Qed.

End FilterSets.

Section FilterOps.
Import F.

Lemma del_id_eq (f : Filter) x :
  del_id f x = set_ids f (match position (fun z => bool_decide (z = x)) (ids f) with
                          | Some i => swap_remove (ids f) i | None => ids f end).
Proof. unfold del_id. destruct (position _ _); [reflexivity|]. now destruct f. Qed.

Lemma del_author_eq (f : Filter) x :
  del_author f x = set_authors f (match position (fun z => bool_decide (z = x)) (authors f) with
                                  | Some i => swap_remove (authors f) i | None => authors f end).
Proof. unfold del_author. destruct (position _ _); [reflexivity|]. now destruct f. Qed.

Lemma del_event_kind_eq (f : Filter) x :
  del_event_kind f x = set_kinds f (match position (fun z => bool_decide (z = x)) (kinds f) with
                                    | Some i => swap_remove (kinds f) i | None => kinds f end).
Proof. unfold del_event_kind. destruct (position _ _); [reflexivity|]. now destruct f. Qed.

Lemma add_id_eq (f : Filter) x :
  add_id f x = set_ids f (if contains x (ids f) then ids f else ids f ++ [x]).
Proof. unfold add_id. destruct (contains x (ids f)); cbn [negb]; [now destruct f|reflexivity]. Qed.

Lemma add_author_eq (f : Filter) x :
  add_author f x = set_authors f (if contains x (authors f) then authors f else authors f ++ [x]).
Proof.
  unfold add_author. destruct (contains x (authors f)); cbn [negb]; [now destruct f|reflexivity].
Qed.

Lemma add_event_kind_eq (f : Filter) x :
  add_event_kind f x = set_kinds f (if contains x (kinds f) then kinds f else kinds f ++ [x]).
Proof. unfold add_event_kind. destruct (contains x (kinds f)); [now destruct f|reflexivity]. Qed.

End FilterOps.

(** When the ids, authors and kinds of a filter have no duplicates, [add_X]
    and [del_X] keep them duplicate-free; after [add_X(x)] the list holds
    the old elements and [x], after [del_X(x)] the old elements except [x]. *)
Theorem filter_list_ops (f : F.Filter) (x y : F.str) (k j : EK.EventKind) :
  NoDup (F.ids f) -> NoDup (F.authors f) -> NoDup (F.kinds f) ->
  (NoDup (F.ids (F.add_id f x)) /\ (y ∈ F.ids (F.add_id f x) <-> y ∈ F.ids f \/ y = x)) /\
  (NoDup (F.ids (F.del_id f x)) /\ (y ∈ F.ids (F.del_id f x) <-> y ∈ F.ids f /\ y <> x)) /\
  (NoDup (F.authors (F.add_author f x)) /\
   (y ∈ F.authors (F.add_author f x) <-> y ∈ F.authors f \/ y = x)) /\
  (NoDup (F.authors (F.del_author f x)) /\
   (y ∈ F.authors (F.del_author f x) <-> y ∈ F.authors f /\ y <> x)) /\
  (NoDup (F.kinds (F.add_event_kind f k)) /\
   (j ∈ F.kinds (F.add_event_kind f k) <-> j ∈ F.kinds f \/ j = k)) /\
  (NoDup (F.kinds (F.del_event_kind f k)) /\
   (j ∈ F.kinds (F.del_event_kind f k) <-> j ∈ F.kinds f /\ j <> k)).
Proof.
  intros Hi Ha Hk.
  rewrite add_id_eq, del_id_eq, add_author_eq, del_author_eq,
    add_event_kind_eq, del_event_kind_eq.
  cbn [F.ids F.authors F.kinds F.set_ids F.set_authors F.set_kinds].
  exact (conj (add_elem_spec x y _ Hi) (conj (del_elem_spec x y _ Hi)
         (conj (add_elem_spec x y _ Ha) (conj (del_elem_spec x y _ Ha)
         (conj (add_elem_spec k j _ Hk) (del_elem_spec k j _ Hk)))))).
Qed.

(** Deleting a value right after adding it restores the filter, for ids,
    authors and kinds when the value was absent, and for a tag letter when the
    value was absent and the letter has no empty value list. *)
Theorem filter_del_after_add (f : F.Filter) (x a : F.str) (k : EK.EventKind) (c : Z)
  (v : F.str) :
  (x ∉ F.ids f -> F.del_id (F.add_id f x) x = f) /\
  (a ∉ F.authors f -> F.del_author (F.add_author f a) a = f) /\
  (k ∉ F.kinds f -> F.del_event_kind (F.add_event_kind f k) k = f) /\
  (F.tags f !! c <> Some [] -> (forall vs, F.tags f !! c = Some vs -> v ∉ vs) ->
   F.del_tag_value (F.add_tag_value f c v) c v = f).
Proof.
  split; [|split; [|split]].
  - intros Hx. rewrite del_id_eq, add_id_eq.
    assert (C : F.contains x (F.ids f) = false)
      by (destruct (F.contains x (F.ids f)) eqn:C; [apply contains_spec in C; contradiction|reflexivity]).
    rewrite C. cbn [F.ids F.set_ids]. rewrite (del_add_elem x _ Hx). now destruct f.
  - intros Hx. rewrite del_author_eq, add_author_eq.
    assert (C : F.contains a (F.authors f) = false)
      by (destruct (F.contains a (F.authors f)) eqn:C; [apply contains_spec in C; contradiction|reflexivity]).
    rewrite C. cbn [F.authors F.set_authors]. rewrite (del_add_elem a _ Hx). now destruct f.
  - intros Hx. rewrite del_event_kind_eq, add_event_kind_eq.
    assert (C : F.contains k (F.kinds f) = false)
      by (destruct (F.contains k (F.kinds f)) eqn:C; [apply contains_spec in C; contradiction|reflexivity]).
    rewrite C. cbn [F.kinds F.set_kinds]. rewrite (del_add_elem k _ Hx). now destruct f.
  - intros Hne Hv. unfold F.add_tag_value, F.del_tag_value.
    destruct (F.tags f !! c) as [vs|] eqn:E.
    + cbn [F.tags F.set_tags]. rewrite lookup_insert_eq.
      specialize (Hv vs eq_refl).
      rewrite (del_add_elem v vs Hv).
      destruct vs as [|w vs']; [congruence|].
      unfold F.set_tags. cbn [F.tags F.ids F.authors F.kinds F.since F.until F.limit].
      rewrite insert_insert_eq, insert_id by exact E. now destruct f.
    + cbn [F.tags F.set_tags]. rewrite lookup_insert_eq.
      cbn [F.position]. rewrite bool_decide_true by reflexivity. cbn [option_map].
      unfold F.swap_remove. cbn [rev app length Nat.eqb].
      unfold F.set_tags. cbn [F.tags F.ids F.authors F.kinds F.since F.until F.limit].
      rewrite delete_insert_eq, delete_insert_id by exact E. now destruct f.
Qed.

(** ** Leading zero bits *)

Section LZ.
Import L.

Lemma count_leading_false_app (l r : list bool) :
  In true l -> count_leading_false (l ++ r) = count_leading_false l.
Proof.
  induction l as [|b l IH]; intros H; [destruct H|].
  destruct b; [reflexivity|]. cbn [app count_leading_false].
  destruct H as [H|H]; [discriminate|]. now rewrite IH.
Qed.

Lemma bits_be_nonzero (b : Z) :
  0 < b < 256 ->
  In true (Bech32.bits_be 8 b) /\
  Z.of_nat (count_leading_false (Bech32.bits_be 8 b)) = leading_zeros b.
Proof.
  intros Hb.
  pose proof (Z_range_check (fun b => (b =? 0) || (existsb id (Bech32.bits_be 8 b) &&
             (Z.of_nat (count_leading_false (Bech32.bits_be 8 b)) =? leading_zeros b)))
             256 ltac:(vm_compute; reflexivity) b ltac:(lia)) as Hc. cbn beta in Hc.
  rewrite (proj2 (Z.eqb_neq b 0)) in Hc by lia. cbn [orb] in Hc.
  apply andb_true_iff in Hc as [H1 H2]. split.
  - apply existsb_exists in H1 as [x [Hx Hid]]. unfold id in Hid. now subst.
  - now apply Z.eqb_eq.
Qed.

Lemma leading_zero_bits_nil : leading_zero_bits [] = 0.
Proof. reflexivity. Qed.

Lemma leading_zero_bits_zero bytes :
  leading_zero_bits (0 :: bytes) = 8 + leading_zero_bits bytes.
Proof.
  unfold leading_zero_bits. cbn [map concat].
  change (Bech32.bits_be 8 0) with [false; false; false; false; false; false; false; false].
  cbn [app count_leading_false]. lia.
Qed.

Lemma leading_zero_bits_nonzero b bytes :
  0 < b < 256 -> leading_zero_bits (b :: bytes) = leading_zeros b.
Proof.
  intros Hb. destruct (bits_be_nonzero b Hb) as [Hin Hc].
  unfold leading_zero_bits. cbn [map concat]. now rewrite count_leading_false_app.
Qed.

Lemma leading_zeros_range b : 0 < b < 256 -> 0 <= leading_zeros b <= 8.
Proof.
  intros Hb.
  pose proof (Z_range_check (fun b => (0 <=? leading_zeros b) && (leading_zeros b <=? 8))
             256 ltac:(vm_compute; reflexivity) b ltac:(lia)) as Hc.
  cbn beta in Hc. apply andb_true_iff in Hc as [H1 H2].
  apply Z.leb_le in H1, H2. lia.
Qed.

Lemma leading_zero_bits_nonneg bytes : 0 <= leading_zero_bits bytes.
Proof. apply Zle_0_nat. Qed.

Lemma lzb_loop_wrap (bytes : list Z) (res : Z) :
  Forall (fun b => 0 <= b < 256) bytes -> 0 <= res < 256 ->
  lzb_loop false bytes res = Ok ((res + leading_zero_bits bytes) mod 256).
Proof.
  intros Hb. revert res. induction Hb as [|b bytes Hb0 Hbs IH]; intros res Hres.
  - rewrite leading_zero_bits_nil, Z.add_0_r, Z.mod_small by lia. reflexivity.
  - cbn [lzb_loop]. unfold u8_add. destruct (Z.eqb_spec b 0) as [->|Hnz].
    + rewrite leading_zero_bits_zero.
      destruct (Z.ltb_spec (res + 8) 256); cbn [obind].
      * rewrite IH by lia. f_equal. f_equal. lia.
      * rewrite IH by (pose proof (Z.mod_pos_bound (res + 8) 256); lia).
        rewrite Z.add_mod_idemp_l by lia. f_equal. f_equal. lia.
    + rewrite leading_zero_bits_nonzero by lia.
      destruct (Z.ltb_spec (res + leading_zeros b) 256).
      * rewrite Z.mod_small; [reflexivity|].
        pose proof (leading_zeros_range b ltac:(lia)). lia.
      * reflexivity.
Qed.

Lemma lzb_loop_checked (bytes : list Z) (res : Z) :
  Forall (fun b => 0 <= b < 256) bytes -> 0 <= res < 256 ->
  lzb_loop true bytes res =
  if res + leading_zero_bits bytes <? 256 then Ok (res + leading_zero_bits bytes) else Panic.
Proof.
  intros Hb. revert res. induction Hb as [|b bytes Hb0 Hbs IH]; intros res Hres.
  - rewrite leading_zero_bits_nil, Z.add_0_r.
    rewrite (proj2 (Z.ltb_lt _ _)) by lia. reflexivity.
  - cbn [lzb_loop]. unfold u8_add. destruct (Z.eqb_spec b 0) as [->|Hnz].
    + rewrite leading_zero_bits_zero. pose proof (leading_zero_bits_nonneg bytes).
      destruct (Z.ltb_spec (res + 8) 256); cbn [obind].
      * rewrite IH by lia. rewrite Z.add_assoc. reflexivity.
      * rewrite (proj2 (Z.ltb_ge _ _)) by lia. reflexivity.
    + rewrite leading_zero_bits_nonzero by lia. reflexivity.
Qed.

(** [get_leading_zero_bits] returns the number of leading zero bits of its
    big-endian byte string when it is below 256; at 256 or more (32 zero bytes
    or more), the [u8] addition overflows: a panic with overflow checks, the
    count modulo 256 without. *)
Theorem get_leading_zero_bits_count (ck : bool) (bytes : list Z) :
  Forall (fun b => 0 <= b < 256) bytes ->
  get_leading_zero_bits ck bytes =
  let c := leading_zero_bits bytes in
  if c <? 256 then Ok c else if ck then Panic else Ok (c mod 256).
Proof.
  intros Hb. unfold get_leading_zero_bits. cbv zeta. destruct ck.
  - rewrite lzb_loop_checked by (assumption || lia). now rewrite Z.add_0_l.
  - rewrite lzb_loop_wrap by (assumption || lia). rewrite Z.add_0_l.
    destruct (Z.ltb_spec (leading_zero_bits bytes) 256); [|reflexivity].
    rewrite Z.mod_small; [reflexivity|]. pose proof (leading_zero_bits_nonneg bytes). lia.
Qed.

Lemma get_leading_zero_bits_count_witness :
  Forall (fun b => 0 <= b < 256) [0; 0; 5; 0] /\
  get_leading_zero_bits true [0; 0; 5; 0] = Ok 21.
Proof.
  assert (H : Forall (fun b => 0 <= b < 256) [0; 0; 5; 0])
    by (repeat constructor; lia).
  split; [exact H|].
  rewrite (get_leading_zero_bits_count true [0; 0; 5; 0] H). vm_compute. reflexivity.
Defined.

End LZ.

(** ** Filter: JSON round trip *)

Section FilterRT.
Import J.

Lemma filter_visit_map_unknown (l : list (F.str * json)) s c :
  Forall (fun e => known_key e.1 = false) l ->
  filter_visit_map l s c = Ok (s, rev c ++ l).
Proof.
  intros Hl. revert c. induction Hl as [|[k v] l Hk Hl IH]; intros c.
  - cbn. now rewrite app_nil_r.
  - cbn [fst] in Hk. apply known_key_false in Hk as (H1 & H2 & H3 & H4 & H5 & H6).
    cbn [filter_visit_map]. rewrite !bool_decide_false by assumption.
    rewrite IH. cbn [rev]. now rewrite <- app_assoc.
Qed.

Lemma tags_visit_map_entries (l : list (Z * list F.str)) acc :
  tags_visit_map (map (fun e : Z * list F.str => ([35; e.1], JArr (map JStr e.2))) l) acc =
  Ok (fold_left (fun m e => <[e.1 := e.2]> m) l acc).
Proof.
  revert acc. induction l as [|[ch vs] l IH]; intros acc; [reflexivity|].
  cbn [map tags_visit_map fst snd]. rewrite de_vec_string_array. cbn [obind].
  apply IH.
Qed.

Lemma deserialize_serialize_tags (m : gmap Z (list F.str)) :
  deserialize_tags (serialize_tags m) = Ok m.
Proof.
  unfold deserialize_tags, serialize_tags. rewrite tags_visit_map_entries. f_equal.
  rewrite <- fold_left_rev_right.
  change (fold_right (fun e m => <[e.1 := e.2]> m) ∅ (rev (tag_entries m)))
    with (list_to_map (rev (tag_entries m)) : gmap Z (list F.str)).
  symmetry. apply list_to_map_flip.
  unfold tag_entries. etransitivity; [|apply Permutation_rev].
  symmetry. apply merge_sort_Permutation.
Qed.

Lemma de_vec_hex32_array (l : list F.str) :
  Forall (fun s => length s = 64%nat /\ forallb is_hex_char s = true) l ->
  de_vec de_hex32 (JArr (map JStr l)) = Ok l.
Proof.
  intros Hl. induction Hl as [|s l [Hlen Hhex] Hl IH]; [reflexivity|].
  cbn [map de_vec map_out] in IH |- *. unfold de_hex32 at 1, de_string at 1. cbn [obind].
  rewrite Hlen, Hhex. cbn [Nat.eqb andb obind]. now rewrite IH.
Qed.

Lemma de_vec_event_kinds (l : list EK.EventKind) :
  Forall (fun k => exists u, 0 <= u < 2 ^ 32 /\ k = EK.from_u32 u) l ->
  de_vec de_event_kind (JArr (map serialize_event_kind l)) = Ok l.
Proof.
  intros Hl. induction Hl as [|k l [u [Hu ->]] Hl IH]; [reflexivity|].
  cbn [map de_vec map_out] in IH |- *. unfold serialize_event_kind at 1, de_event_kind at 1.
  rewrite to_u32_from_u32.
  rewrite (proj2 (Z.leb_le 0 u)), (proj2 (Z.ltb_lt u (2 ^ 64))) by lia. cbn [andb].
  rewrite Z.mod_small by lia. cbn [obind]. now rewrite IH.
Qed.

Lemma de_option_i64_num (n : Z) :
  - 2 ^ 63 <= n < 2 ^ 63 -> de_option de_i64 (JNum n) = Ok (Some n).
Proof.
  intros Hn. cbn [de_option de_i64].
  rewrite (proj2 (Z.leb_le _ _)), (proj2 (Z.ltb_lt _ _)) by lia. reflexivity.
Qed.

Lemma de_option_usize_num (n : Z) :
  0 <= n < 2 ^ 64 -> de_option de_usize (JNum n) = Ok (Some n).
Proof.
  intros Hn. cbn [de_option de_usize].
  rewrite (proj2 (Z.leb_le _ _)), (proj2 (Z.ltb_lt _ _)) by lia. reflexivity.
Qed.

Lemma serialize_tags_unknown (m : gmap Z (list F.str)) :
  Forall (fun e => known_key e.1 = false) (serialize_tags m).
Proof.
  unfold serialize_tags. apply Forall_forall. intros e He.
  apply list_elem_of_In, in_map_iff in He as [x [<- _]]. apply known_key_tag.
Qed.

Ltac key_neq := intros ?Hk; vm_compute in Hk; discriminate Hk.
Ltac keys := repeat first [rewrite bool_decide_true by reflexivity | rewrite bool_decide_false by key_neq].
Ltac seen_simpl := cbn [obind fst snd rev app f_ids f_authors f_kinds f_since f_until f_limit seen_none de_field].

(** Serialising a filter to JSON and deserialising it gives the filter back,
    for every tag map, when its ids and authors are 64-digit lower-case hex
    strings, its kinds are [EventKind::from] of [u32] values, [since] and
    [until] are [i64] values and [limit] is a [usize]. *)
Theorem filter_json_roundtrip (f : F.Filter) :
  Forall (fun s => length s = 64%nat /\ forallb J.is_hex_char s = true) (F.ids f) ->
  Forall (fun s => length s = 64%nat /\ forallb J.is_hex_char s = true) (F.authors f) ->
  Forall (fun k => exists u, 0 <= u < 2 ^ 32 /\ k = EK.from_u32 u) (F.kinds f) ->
  (forall s, F.since f = Some s -> - 2 ^ 63 <= s < 2 ^ 63) ->
  (forall u, F.until f = Some u -> - 2 ^ 63 <= u < 2 ^ 63) ->
  (forall l, F.limit f = Some l -> 0 <= l < 2 ^ 64) ->
  J.deserialize_filter (J.serialize_filter f) = Ok f.
Proof.
  intros Hids Hauth Hkinds Hsince Huntil Hlimit.
  unfold J.deserialize_filter, J.serialize_filter.
  destruct f as [ids authors kinds tags since until limit];
    cbn [F.ids F.authors F.kinds F.tags F.since F.until F.limit] in *.
  rewrite filter_visit_map_app.
  destruct (bool_decide (ids = [])) eqn:Ei; cbn [filter_visit_map]; keys; seen_simpl;
    try (rewrite de_vec_hex32_array by assumption; seen_simpl).
  all: rewrite filter_visit_map_app.
  all: destruct (bool_decide (authors = [])) eqn:Ea; cbn [filter_visit_map]; keys; seen_simpl;
    try (rewrite de_vec_hex32_array by assumption; seen_simpl).
  all: rewrite filter_visit_map_app.
  all: destruct (bool_decide (kinds = [])) eqn:Ek; cbn [filter_visit_map]; keys; seen_simpl;
    try (rewrite de_vec_event_kinds by assumption; seen_simpl).
  all: rewrite filter_visit_map_app, filter_visit_map_unknown by apply serialize_tags_unknown; seen_simpl.
  all: rewrite filter_visit_map_app.
  all: destruct since as [sv|]; cbn [filter_visit_map]; keys; seen_simpl;
    try (rewrite de_option_i64_num by auto; seen_simpl).
  all: rewrite filter_visit_map_app.
  all: destruct until as [uv|]; cbn [filter_visit_map]; keys; seen_simpl;
    try (rewrite de_option_i64_num by auto; seen_simpl).
  all: destruct limit as [lv|]; cbn [filter_visit_map]; keys; seen_simpl;
    try (rewrite de_option_usize_num by auto; seen_simpl).
  all: rewrite ?rev_involutive, deserialize_serialize_tags; cbn [obind default_to].
  all: repeat match goal with
         | H : bool_decide _ = true |- _ => apply bool_decide_eq_true in H; subst
         end; reflexivity.
Qed.

Lemma filter_json_roundtrip_witness :
  J.deserialize_filter (J.serialize_filter
    (F.mkFilter [repeat 97 64] [] [EK.TextNote; EK.from_u32 7000] (<[112 := [[97]]]> ∅)
                (Some 5) None (Some 10))) =
  Ok (F.mkFilter [repeat 97 64] [] [EK.TextNote; EK.from_u32 7000] (<[112 := [[97]]]> ∅)
                 (Some 5) None (Some 10)).
Proof.
  apply filter_json_roundtrip; cbn [F.ids F.authors F.kinds F.since F.until F.limit].
  - constructor; [split; [reflexivity | vm_compute; reflexivity] | constructor].
  - constructor.
  - constructor; [exists 1; split; [lia | reflexivity] |].
    constructor; [exists 7000; split; [lia | reflexivity] | constructor].
  - intros s Hs. injection Hs as <-. lia.
  - intros u Hu. discriminate.
  - intros l Hl. injection Hl as <-. lia.
Defined.
End FilterRT.

(** ** Instances *)

Lemma iter_after_n_witness :
  (3 <= length EK.WELL_KNOWN_KINDS)%nat /\
  EK.next_n 3 EK.iter = Ok (take 3 EK.WELL_KNOWN_KINDS, EK.mkIter 3).
Proof.
  assert (H : (3 <= length EK.WELL_KNOWN_KINDS)%nat) by (cbn; lia).
  split; [exact H | exact (proj1 (iter_after_n 3 H))].
Defined.

Lemma event_kind_json_roundtrip_witness :
  J.de_event_kind (J.serialize_event_kind (EK.from_u32 70000)) = Ok (EK.from_u32 70000).
Proof.
  apply event_kind_json_roundtrip. right. exists 70000. split; [lia | reflexivity].
Defined.

Lemma naddr_decode_fields_witness :
  NA.naddr_from_tlv true
    (NA.encode_fields [(0, [97]); (1, [98]); (3, NA.to_be_bytes 30023); (0, [99]);
                       (2, NA.generator_x)]) =
  Ok (NA.mkNAddr [99] [[98]] EK.LongFormContent (NA.mkPublicKey NA.generator_x)).
Proof.
  rewrite (naddr_decode_fields true).
  - vm_compute. reflexivity.
  - repeat constructor; cbn; lia.
  - discriminate.
  - repeat constructor.
Defined.

Lemma naddr_decode_bad_field_witness :
  NA.naddr_from_tlv true (NA.encode_fields ([(0, [97])] ++ (3, [1; 2]) :: [(2, NA.generator_x)])) =
  Err NA.WrongLengthKindBytes.
Proof.
  rewrite (naddr_decode_bad_field true [(0, [97])] (3, [1; 2]) [(2, NA.generator_x)]).
  - reflexivity.
  - repeat constructor; cbn; lia.
  - repeat constructor.
  - reflexivity.
Defined.

Lemma naddr_decode_trailing_byte_witness :
  NA.naddr_from_tlv true
    (NA.encode_fields [(0, [97]); (3, NA.to_be_bytes 30023); (2, NA.generator_x)] ++ [7]) =
  Ok (NA.mkNAddr [97] [] EK.LongFormContent (NA.mkPublicKey NA.generator_x)).
Proof.
  rewrite (naddr_decode_trailing_byte true).
  - vm_compute. reflexivity.
  - repeat constructor; cbn; lia.
  - discriminate.
Defined.

Lemma naddr_decode_truncated_field_witness :
  NA.naddr_from_tlv true (NA.encode_fields [(0, [97])] ++ 1 :: 5 :: [104]) = Err NA.InvalidProfile.
Proof.
  apply (naddr_decode_truncated_field true [(0, [97])] 1 5 [104]).
  - repeat constructor; cbn; lia.
  - repeat constructor.
  - cbn. lia.
Defined.

Lemma naddr_roundtrip_all_witness :
  NA.try_from_bech32_string true
    (NA.as_bech32_string
       (NA.mkNAddr (bytes_of_string "hello") [bytes_of_string "wss://nos.lol"]
          EK.TextNote (NA.mkPublicKey NA.generator_x))) =
  Err NA.NonReplaceableAddr.
Proof.
  rewrite (naddr_roundtrip_all true); cbn [NA.d NA.relays NA.kind NA.author].
  - reflexivity.
  - vm_compute. reflexivity.
  - cbn. lia.
  - constructor; [split; [vm_compute; reflexivity | cbn; lia] | constructor].
  - vm_compute. reflexivity.
  - cbn. lia.
  - vm_compute. reflexivity.
  - apply Nat.leb_le. vm_compute. reflexivity.
Defined.

Lemma filter_list_ops_witness :
  NoDup (F.ids (F.add_id
    (F.mkFilter [[97]; [98]; [99]] [[100]] [EK.TextNote; EK.Metadata] ∅ None None None) [98])) /\
  NoDup (F.ids (F.del_id
    (F.mkFilter [[97]; [98]; [99]] [[100]] [EK.TextNote; EK.Metadata] ∅ None None None) [98])) /\
  ([99] ∈ F.ids (F.del_id
    (F.mkFilter [[97]; [98]; [99]] [[100]] [EK.TextNote; EK.Metadata] ∅ None None None) [98])) /\
  ([98] ∉ F.ids (F.del_id
    (F.mkFilter [[97]; [98]; [99]] [[100]] [EK.TextNote; EK.Metadata] ∅ None None None) [98])) /\
  NoDup (F.kinds (F.del_event_kind
    (F.mkFilter [[97]; [98]; [99]] [[100]] [EK.TextNote; EK.Metadata] ∅ None None None) EK.TextNote)) /\
  (EK.TextNote ∉ F.kinds (F.del_event_kind
    (F.mkFilter [[97]; [98]; [99]] [[100]] [EK.TextNote; EK.Metadata] ∅ None None None) EK.TextNote)).
Proof.
  assert (Hi : NoDup [[97]; [98]; [99]])
    by (apply (bool_decide_eq_true_1 (NoDup [[97]; [98]; [99]])); vm_compute; reflexivity).
  assert (Ha : NoDup [[100]])
    by (apply (bool_decide_eq_true_1 (NoDup [[100]])); vm_compute; reflexivity).
  assert (Hk : NoDup [EK.TextNote; EK.Metadata])
    by (apply (bool_decide_eq_true_1 (NoDup [EK.TextNote; EK.Metadata])); vm_compute; reflexivity).
  destruct (filter_list_ops (F.mkFilter [[97]; [98]; [99]] [[100]] [EK.TextNote; EK.Metadata] ∅ None None None) [98] [99] EK.TextNote EK.TextNote Hi Ha Hk)
    as ([Hadd _] & [Hdel H99] & _ & _ & _ & [Hkd Hkm]).
  destruct (filter_list_ops (F.mkFilter [[97]; [98]; [99]] [[100]] [EK.TextNote; EK.Metadata] ∅ None None None) [98] [98] EK.TextNote EK.TextNote Hi Ha Hk)
    as (_ & [_ H98] & _).
  split; [exact Hadd|]. split; [exact Hdel|]. split.
  { apply H99. split; [cbn; right; right; left | discriminate]. }
  split.
  { intros H. apply H98 in H as [_ H]. now apply H. }
  split; [exact Hkd|].
  intros H. apply Hkm in H as [_ H]. now apply H.
Defined.
